(** * Mono-alphabetic substitution ciphers: simplesubstitution/Cipher.py

    A shallow embedding of the cipher engine of [simplesubstitution/Cipher.py]
    and the properties its specification states about it, followed by
    further properties of that module, of [simplesubstitution/main.py], of
    [simplesubstitution/binarysearch.py] and of [statstools/CharCounter.py].

    Conventions of the embedding.
    - The characters are those of [Ascii.ascii], the code points 0 to 255.
      The characters of a Python [str], and those of a Python list of
      one-character strings, are a [list ascii]; [list(s)] and
      [_list_to_string] are therefore the identity on the characters.
    - Where the module compares an alphabet with [==], a [str] and a list
      of the same characters differ: an alphabet handed to such a
      comparison is a [sequence], which records which of the two it is.
    - [str.lower], [str.upper] and [str.isspace] are Python's on the code
      points 0 to 255: the case maps change the letters of ASCII and those
      of Latin-1, and the upper case of code point 223 is the two
      characters [SS].  Two code points, 181 and 255, have their upper case
      outside of the 256 characters; [upper_char] says what stands for it.
    - A Python [int] is a [Z]; [%] with a positive right operand is
      [Z.modulo] (both round towards minus infinity).
    - A call that may raise returns a [result]: [Ok v] or [Raise e], with
      one constructor of [exception] per Python exception class that the
      module can raise.
    - A [for] loop over a sequence that updates local variables is
      [for_in]: the loop body is a function from the current value of the
      variables to their next value, or to the exception that leaves the
      loop. *)

From Stdlib Require Import ZArith Ascii String Sorted.
From stdpp Require Import base list gmap strings.
From Equations Require Import Equations.

Local Open Scope Z_scope.
Local Open Scope nat_scope.

(** ** Exceptions and the error monad *)

Inductive exception : Type :=
| ValueError (msg : list ascii)
| ZeroDivisionError
| IndexError.

Inductive result (A : Type) : Type :=
| Ok (a : A)
| Raise (e : exception).

Arguments Ok {A} a.
Arguments Raise {A} e.

Definition bind {A B : Type} (r : result A) (k : A -> result B) : result B :=
  match r with
  | Ok a => k a
  | Raise e => Raise e
  end.

Notation "'let!' x ':=' r 'in' k" := (bind r (fun x => k))
  (at level 10, x name, r at level 100, k at level 200, only parsing).

(** [for x in xs: body], the loop variables being threaded as [s]. *)
Fixpoint for_in {A S : Type} (xs : list A) (body : S -> A -> result S) (s : S)
  : result S :=
  match xs with
  | [] => Ok s
  | x :: xs' => let! s' := body s x in for_in xs' body s'
  end.

(** ** Python built-ins used by the module *)

(** A string literal as the sequence of its characters. *)
Abbreviation str s := (list_ascii_of_string s%string) (only parsing).

(** [l.index(x)]: the position of the first element equal to [x]; [None]
    stands for the [ValueError] that [list.index] raises when there is none. *)
Fixpoint index (l : list ascii) (x : ascii) : option nat :=
  match l with
  | [] => None
  | y :: l' => if decide (y = x) then Some 0 else S <$> index l' x
  end.

(** The text of the [ValueError] of [list.index]; no caller inspects it. *)
Definition not_in_list : list ascii := str "x not in list".

(** [l.index(x)] outside a [try]. *)
Definition index_exn (l : list ascii) (x : ascii) : result nat :=
  match index l x with
  | Some position => Ok position
  | None => Raise (ValueError not_in_list)
  end.

(** [l[i]] for a position [i >= 0]. *)
Definition getitem (l : list ascii) (i : nat) : result ascii :=
  match l !! i with
  | Some x => Ok x
  | None => Raise IndexError
  end.

(** [l.pop(i)] for a position [i >= 0]: the element removed and the list
    that is left. *)
Definition pop (l : list ascii) (i : nat) : result (ascii * list ascii) :=
  match l !! i with
  | Some x => Ok (x, delete i l)
  | None => Raise IndexError
  end.

(** [x in l]. *)
Definition contains (l : list ascii) (x : ascii) : bool := bool_decide (x ∈ l).

(** The uppercase letters [A] to [Z] and the lowercase letters [a] to [z]
    of ASCII. *)
Definition is_upper (c : ascii) : bool :=
  ((65 <=? N_of_ascii c) && (N_of_ascii c <=? 90))%N.

Definition is_lower (c : ascii) : bool :=
  ((97 <=? N_of_ascii c) && (N_of_ascii c <=? 122))%N.

(** The uppercase letters of Latin-1, code points 192 to 222 without the
    multiplication sign 215, and its lowercase letters that have their
    upper case 32 code points below, code points 224 to 254 without the
    division sign 247. *)
Definition is_upper_latin1 (c : ascii) : bool :=
  ((192 <=? N_of_ascii c) && (N_of_ascii c <=? 222) && negb (N_of_ascii c =? 215))%N.

Definition is_lower_latin1 (c : ascii) : bool :=
  ((224 <=? N_of_ascii c) && (N_of_ascii c <=? 254) && negb (N_of_ascii c =? 247))%N.

(** [c.lower()] for a one-character string: an uppercase letter of ASCII
    or of Latin-1 becomes the letter 32 code points above, every other
    character is unchanged. *)
Definition lower_char (c : ascii) : ascii :=
  if is_upper c || is_upper_latin1 c then ascii_of_N (N_of_ascii c + 32) else c.

(** [c.upper()] for a one-character string, which is a string of one or
    two characters: the sharp s, code point 223, becomes [SS]; a lowercase
    letter of ASCII or of Latin-1 becomes the letter 32 code points below;
    every other character is unchanged.  For the micro sign, code point 181,
    and the y with diaeresis, code point 255, Python answers the code points
    924 and 376, which are not among the 256 characters: the character
    itself stands for its upper case, as a character that is no letter of
    ASCII either. *)
Definition upper_char (c : ascii) : list ascii :=
  if (N_of_ascii c =? 223)%N then str "SS"
  else if is_lower c || is_lower_latin1 c then [ascii_of_N (N_of_ascii c - 32)]
  else [c].

(** [s.lower()] and [s.upper()]: the case maps apply character by
    character. *)
Definition lower (s : list ascii) : list ascii := lower_char <$> s.

Definition upper (s : list ascii) : list ascii := s ≫= upper_char.

(** [string.ascii_lowercase], [string.ascii_uppercase], [string.ascii_letters]. *)
Definition ascii_lowercase : list ascii := str "abcdefghijklmnopqrstuvwxyz".
Definition ascii_uppercase : list ascii := str "ABCDEFGHIJKLMNOPQRSTUVWXYZ".
Definition ascii_letters : list ascii := ascii_lowercase ++ ascii_uppercase.

(** An alphabet as a caller hands it over: a [str], or a list of
    one-character strings such as [PRINTABLE_ASCII_ALPHABET].  [list],
    [len], [set], [in], [index], the subscripts and the iteration see the
    characters only; [==] also sees which of the two the value is. *)
Inductive sequence : Type :=
| PyStr (characters : list ascii)
| PyList (characters : list ascii).

#[global] Instance sequence_eq_dec : EqDecision sequence.
Proof. solve_decision. Defined.

(** The characters of a sequence, in order. *)
Definition chars (alphabet : sequence) : list ascii :=
  match alphabet with
  | PyStr characters => characters
  | PyList characters => characters
  end.

(** The sequence of the same type as [alphabet] with the characters
    [characters]: slices of a [str] and their concatenation are a [str],
    those of a list are a list. *)
Definition with_chars (alphabet : sequence) (characters : list ascii) : sequence :=
  match alphabet with
  | PyStr _ => PyStr characters
  | PyList _ => PyList characters
  end.

(** ** Internal functions of the module *)

Definition _list_to_string (char_list : list ascii) : list ascii := char_list.

Definition keyword_not_in_alphabet : list ascii :=
  str "Keyword contains character not contained in the alphabet: ".

(** The body of the loop of [_generate_keyword_based_ciphertext_alphabet];
    the loop variables are [(plaintext_list, ciphertext_list)]. *)
Definition keyword_loop_body (st : list ascii * list ascii) (char : ascii)
  : result (list ascii * list ascii) :=
  let '(plaintext_list, ciphertext_list) := st in
  match index plaintext_list char with
  | Some position =>
      let! popped := pop plaintext_list position in
      Ok (popped.2, ciphertext_list ++ [popped.1])
  | None =>
      if contains ciphertext_list char then Ok st
      else Raise (ValueError (keyword_not_in_alphabet ++ [char]))
  end.

Definition _generate_keyword_based_ciphertext_alphabet
  (plaintext_alphabet key : list ascii) : result (list ascii) :=
  let! st := for_in key keyword_loop_body (plaintext_alphabet, []) in
  Ok (_list_to_string (st.2 ++ st.1)).

(** [plaintext_alphabet == string.ascii_letters] holds for the [str] of
    the 52 letters only; the result is a [str] in both branches.  The
    second call of the first branch is reached when the first call has
    returned, which it does for a key of letters of ASCII only. *)
Definition _generate_case_handled_ciphertext_alphabet
  (plaintext_alphabet : sequence) (key : list ascii) : result (list ascii) :=
  if decide (plaintext_alphabet = PyStr ascii_letters) then
    let! lower_half := _generate_keyword_based_ciphertext_alphabet ascii_lowercase (lower key) in
    let! upper_half := _generate_keyword_based_ciphertext_alphabet ascii_uppercase (upper key) in
    Ok (lower_half ++ upper_half)
  else
    _generate_keyword_based_ciphertext_alphabet (chars plaintext_alphabet) key.

(** The body of the loop of [_generate_inverse]; the loop variable is
    [inverse_list]. *)
Definition inverse_loop_body (plaintext_list ciphertext_list : list ascii)
  (inverse_list : list ascii) (char : ascii) : result (list ascii) :=
  let! position := index_exn ciphertext_list char in
  let! x := getitem plaintext_list position in
  Ok (inverse_list ++ [x]).

Definition _generate_inverse (plaintext_list ciphertext_list : list ascii)
  : result (list ascii) :=
  for_in plaintext_list (inverse_loop_body plaintext_list ciphertext_list) [].

(** The body of the loop of [_apply_mapping]; the loop variable is
    [converted].  Only the [ValueError] of [index] is caught. *)
Definition mapping_loop_body (source_list destination_list : list ascii)
  (converted : list ascii) (char : ascii) : result (list ascii) :=
  match index source_list char with
  | Some position =>
      let! x := getitem destination_list position in
      Ok (converted ++ [x])
  | None => Ok (converted ++ [char])
  end.

Definition _apply_mapping (message_str source_list destination_list : list ascii)
  : result (list ascii) :=
  let! converted := for_in message_str (mapping_loop_body source_list destination_list) [] in
  Ok (_list_to_string converted).

(** [shift_amount % len(alphabet_string)] raises [ZeroDivisionError] on the
    empty alphabet; otherwise [amount] lies in [[0, len)] and the two slices
    are [drop] and [take].  The function is given the characters of
    [alphabet_string] and returns those of the result, which is a [str] for
    a [str] and a list for a list. *)
Definition _generate_shifted_alphabet (alphabet_string : list ascii) (shift_amount : Z)
  : result (list ascii) :=
  if decide (length alphabet_string = 0) then Raise ZeroDivisionError
  else
    let amount := Z.to_nat (shift_amount mod Z.of_nat (length alphabet_string)) in
    Ok (drop amount alphabet_string ++ take amount alphabet_string).

(** ** Public part of the module *)

(** ['\t'] followed by the characters of code points 32 to 126. *)
Definition PRINTABLE_ASCII_ALPHABET : list ascii :=
  ascii_of_nat 9 :: (ascii_of_nat <$> seq 32 95).

Definition different_character_counts : list ascii :=
  str "The plaintext and ciphertext have different character counts.".

Definition not_the_same_set : list ascii :=
  str "The plaintext and the ciphertext are not the same set of characters.".

Definition keyword_non_null : list ascii :=
  str "The keyword has to be a non-null string.".

(** The attributes of a [Cipher] object. *)
Record Cipher : Type := mkCipher {
  plaintext_list : list ascii;
  ciphertext_list : list ascii;
  inverse_list : list ascii
}.

Module Cipher.

(** [Cipher(ciphertext_alphabet, plaintext_alphabet)]. *)
Definition __init__ (ciphertext_alphabet plaintext_alphabet : list ascii)
  : result Cipher :=
  let plaintext_list := plaintext_alphabet in
  if decide (length plaintext_alphabet ≠ length ciphertext_alphabet) then
    Raise (ValueError different_character_counts)
  else
    let ciphertext_list := ciphertext_alphabet in
    if decide ((list_to_set plaintext_list : gset ascii) ≠ list_to_set ciphertext_list) then
      Raise (ValueError not_the_same_set)
    else
      let! inverse_list := _generate_inverse plaintext_list ciphertext_list in
      Ok (mkCipher plaintext_list ciphertext_list inverse_list).

(** The default of [plaintext_alphabet]. *)
Definition default_plaintext_alphabet : list ascii := ascii_letters.

Definition encrypt (self : Cipher) (message_string : list ascii) : result (list ascii) :=
  _apply_mapping message_string (plaintext_list self) (ciphertext_list self).

Definition decrypt (self : Cipher) (message_string : list ascii) : result (list ascii) :=
  _apply_mapping message_string (plaintext_list self) (inverse_list self).

End Cipher.

Module KeyedCipher.

(** [KeyedCipher(key, plaintext_alphabet)]; [None] is the default of
    [plaintext_alphabet], which stands for the list
    [PRINTABLE_ASCII_ALPHABET]. *)
Definition __init__ (key : list ascii) (plaintext_alphabet : option sequence)
  : result Cipher :=
  let plaintext_alphabet := default (PyList PRINTABLE_ASCII_ALPHABET) plaintext_alphabet in
  if decide (length key = 0) then Raise (ValueError keyword_non_null)
  else
    let! ciphertext_alphabet := _generate_case_handled_ciphertext_alphabet plaintext_alphabet key in
    Cipher.__init__ ciphertext_alphabet (chars plaintext_alphabet).

End KeyedCipher.

Module ShiftedCipher.

(** [ShiftedCipher(shift_amount, plaintext_alphabet)]: nothing on this
    path compares the alphabet with [==], so that it is given by its
    characters. *)
Definition __init__ (shift_amount : Z) (plaintext_alphabet : option (list ascii))
  : result Cipher :=
  let plaintext_alphabet := default PRINTABLE_ASCII_ALPHABET plaintext_alphabet in
  let! ciphertext_alphabet := _generate_shifted_alphabet plaintext_alphabet shift_amount in
  Cipher.__init__ ciphertext_alphabet plaintext_alphabet.

End ShiftedCipher.

(** [get_combined_cipher(key, shift_amount, plaintext_alphabet,
    shift_first)].  With [shift_first] the shifted alphabet, of the type of
    the alphabet given, goes to [KeyedCipher]; otherwise the reordered
    alphabet, a [str], goes to [ShiftedCipher]. *)
Definition get_combined_cipher (key : list ascii) (shift_amount : Z)
  (plaintext_alphabet : option sequence) (shift_first : bool) : result Cipher :=
  let plaintext_alphabet := default (PyList PRINTABLE_ASCII_ALPHABET) plaintext_alphabet in
  if shift_first then
    let! shifted := _generate_shifted_alphabet (chars plaintext_alphabet) shift_amount in
    let plaintext_alphabet := with_chars plaintext_alphabet shifted in
    KeyedCipher.__init__ key (Some plaintext_alphabet)
  else
    let! plaintext_alphabet := _generate_case_handled_ciphertext_alphabet plaintext_alphabet key in
    ShiftedCipher.__init__ shift_amount (Some plaintext_alphabet).

(** ** simplesubstitution/binarysearch.py *)

(** [bisect.bisect_left(a, x, lo, hi)] of the standard library, on a list
    of integers and for [lo >= 0] and [hi >= 0]:
    [while lo < hi: mid = (lo + hi) // 2; if a[mid] < x: lo = mid + 1;
    else: hi = mid] and then [return lo].  The subscript [a[mid]] raises
    [IndexError] beyond the end of the list. *)
Equations? bisect_left (a : list Z) (x : Z) (lo hi : nat) : result nat
  by wf (hi - lo) lt :=
  bisect_left a x lo hi with decide (lo < hi) := {
    | right _ => Ok lo
    | left _ with a !! ((lo + hi) / 2) := {
        | None => Raise IndexError
        | Some y with decide (y < x)%Z := {
            | left _ => bisect_left a x ((lo + hi) / 2 + 1) hi
            | right _ => bisect_left a x lo ((lo + hi) / 2) } } }.
Proof.
  all: change (Nat.divmod (lo + hi) 1 0 1).1 with ((lo + hi) / 2);
    pose proof (Nat.div_mod_eq (lo + hi) 2);
    pose proof (Nat.mod_upper_bound (lo + hi) 2 ltac:(lia)); lia.
Qed.

(** [upper or len(arr)]: an [upper] that is [None] or [0] stands for the
    length of the list. *)
Definition upper_or_len (arr : list Z) (upper : option nat) : nat :=
  match upper with
  | None => length arr
  | Some u => if decide (u = 0) then length arr else u
  end.

(** [binary_search(arr, key, lower, upper)] for [lower >= 0] and an
    [upper] that is [None] or [>= 0]. *)
Definition binary_search (arr : list Z) (key : Z) (lower : nat) (upper : option nat)
  : result Z :=
  let upper := upper_or_len arr upper in
  let! position := bisect_left arr key lower upper in
  if decide (position ≠ upper) then
    match arr !! position with
    | Some y => if decide (y = key) then Ok (Z.of_nat position) else Ok (-1)%Z
    | None => Raise IndexError
    end
  else Ok (-1)%Z.

(** ** statstools/CharCounter.py *)

(** [c.isspace()] for a one-character string: the code points 9 to 13 and
    28 to 32, the next line control 133 and the no-break space 160. *)
Definition is_space_char (c : ascii) : bool :=
  (((9 <=? N_of_ascii c) && (N_of_ascii c <=? 13))
   || ((28 <=? N_of_ascii c) && (N_of_ascii c <=? 32))
   || (N_of_ascii c =? 133) || (N_of_ascii c =? 160))%N.

(** [s.isspace()]: the string is not empty and all its characters are
    whitespace. *)
Definition isspace (s : list ascii) : bool :=
  bool_decide (s ≠ []) && forallb is_space_char s.

(** [counter[character] += 1] on a [collections.Counter], kept as the list
    of its items in insertion order: a missing key counts as 0 and is
    inserted at the end. *)
Fixpoint increment (counter : list (list ascii * Z)) (character : list ascii)
  : list (list ascii * Z) :=
  match counter with
  | [] => [(character, 1%Z)]
  | (k, v) :: rest =>
      if decide (k = character) then (k, (v + 1)%Z) :: rest
      else (k, v) :: increment rest character
  end.

(** [counter[character]]: 0 for a missing key. *)
Fixpoint getcount (counter : list (list ascii * Z)) (character : list ascii) : Z :=
  match counter with
  | [] => 0%Z
  | (k, v) :: rest => if decide (k = character) then v else getcount rest character
  end.

(** [sorted(items, key=key)]: the stable sort in ascending order of [key],
    computed by insertion from the right, each item going before the items
    already placed whose key is not smaller. *)
Fixpoint insert_sorted {A : Type} (key : A -> Z) (x : A) (l : list A) : list A :=
  match l with
  | [] => [x]
  | y :: l' => if decide (key y < key x)%Z then y :: insert_sorted key x l' else x :: l
  end.

Definition sorted {A : Type} (key : A -> Z) (items : list A) : list A :=
  foldr (insert_sorted key) [] items.

(** The attributes of a [CharCounter] object; [default_selector] never
    changes and is the constant below. *)
Record CharCounter : Type := mkCharCounter {
  counter : list (list ascii * Z);
  entries : option (list (list ascii * Z));
  selector_function : option (list ascii * Z -> Z)
}.

Module CharCounter.

Definition default_selector (pair : list ascii * Z) : Z := (- pair.2)%Z.

Definition __init__ : CharCounter := mkCharCounter [] None None.

Definition add_char (self : CharCounter) (character : list ascii) : CharCounter :=
  mkCharCounter (increment (counter self) character) (entries self)
    (selector_function self).

Definition case_insensitive_add_char (self : CharCounter) (character : list ascii)
  : CharCounter :=
  if isspace character then add_char self (str "whitespace")
  else add_char self (lower character).

Definition set_selector_function (self : CharCounter)
  (function : option (list ascii * Z -> Z)) : CharCounter :=
  mkCharCounter (counter self) (entries self) function.

(** [not self.entries] holds for [None] and for the empty list. *)
Definition get_entries (self : CharCounter)
  : CharCounter * list (list ascii * Z) :=
  match entries self with
  | Some (e :: es) => (self, e :: es)
  | _ =>
      let sorted_items :=
        sorted (default default_selector (selector_function self)) (counter self) in
      (mkCharCounter (counter self) (Some sorted_items) (selector_function self),
       sorted_items)
  end.

Definition get_frequency_map (self : CharCounter) : list (list ascii * Z) :=
  counter self.

(** The loop of the [__main__] block:
    [for char in text: counter.case_insensitive_add_char(char)]. *)
Definition count_text (self : CharCounter) (text : list ascii) : CharCounter :=
  foldl (fun self char => case_insensitive_add_char self [char]) self text.

End CharCounter.

(** A call that changes a [CharCounter] without reading its entries. *)
Inductive update : Type :=
| AddChar (character : list ascii)
| CaseInsensitiveAddChar (character : list ascii)
| SetSelectorFunction (function : option (list ascii * Z -> Z)).

Definition run_update (self : CharCounter) (u : update) : CharCounter :=
  match u with
  | AddChar character => CharCounter.add_char self character
  | CaseInsensitiveAddChar character => CharCounter.case_insensitive_add_char self character
  | SetSelectorFunction function => CharCounter.set_selector_function self function
  end.

(** The sum of the counts of a frequency map. *)
Definition total_count (counter : list (list ascii * Z)) : Z :=
  foldr (fun pair acc => (pair.2 + acc)%Z) 0%Z counter.

(** The number of elements of [l] equal to [x]. *)
Definition occurrences {A : Type} `{EqDecision A} (x : A) (l : list A) : nat :=
  length (filter (fun y => y = x) l).

(** ** simplesubstitution/main.py *)

(** The cipher that the [__main__] block of [main.py] builds and hands to
    [generate_files]. *)
Definition main_cipher : result Cipher :=
  get_combined_cipher
    (str "The Enigma Machine had a fatal flaw. A character never mapped to itself.")
    (-42000) (Some (PyList PRINTABLE_ASCII_ALPHABET)) true.

(** ** Notions used in the statements *)

(** The image of one character under the mapping from [source_list] to
    [destination_list]: the character at the position of its first
    occurrence in [source_list], and the character itself when it does not
    occur. *)
Definition mapped (source_list destination_list : list ascii) (char : ascii) : ascii :=
  match index source_list char with
  | Some position => default char (destination_list !! position)
  | None => char
  end.

(** [alphabet] rotated left by [n] positions. *)
Definition rotate_left (n : nat) (alphabet : list ascii) : list ascii :=
  drop n alphabet ++ take n alphabet.

(** The specification has one error kind, [InvalidArgument]; it stands for
    the [ValueError] that every [raise] of the module uses. *)
Definition fails_with_InvalidArgument {A : Type} (r : result A) : Prop :=
  exists msg, r = Raise (ValueError msg).

(** [l] without the first occurrence of [c]. *)
Fixpoint remove_first (c : ascii) (l : list ascii) : list ascii :=
  match l with
  | [] => []
  | y :: l' => if decide (y = c) then l' else y :: remove_first c l'
  end.

(** [reorder_by_key] as the specification words it: the key is read in
    order; a character still present in the working copy of the alphabet
    loses its first occurrence there and is appended to the characters
    moved so far; a character no longer present but present in the
    alphabet from the start is skipped; any other character is an error
    that names it; at the end the working copy is appended. *)
Fixpoint reorder_by_key_from (alphabet working moved key : list ascii)
  : result (list ascii) :=
  match key with
  | [] => Ok (moved ++ working)
  | c :: key' =>
      if bool_decide (c ∈ working) then
        reorder_by_key_from alphabet (remove_first c working) (moved ++ [c]) key'
      else if bool_decide (c ∈ alphabet) then
        reorder_by_key_from alphabet working moved key'
      else Raise (ValueError (keyword_not_in_alphabet ++ [c]))
  end.

Definition reorder_by_key_spec (alphabet key : list ascii) : result (list ascii) :=
  reorder_by_key_from alphabet alphabet [] key.

(** The characters of [key] in order of first occurrence, without those of
    [seen] and without repetitions. *)
Fixpoint first_occurrences (seen key : list ascii) : list ascii :=
  match key with
  | [] => []
  | c :: key' =>
      if bool_decide (c ∈ seen) then first_occurrences seen key'
      else c :: first_occurrences (seen ++ [c]) key'
  end.

(** The list is in non-decreasing order. *)
Definition non_decreasing (arr : list Z) : Prop :=
  forall i j x y, i <= j -> arr !! i = Some x -> arr !! j = Some y -> (x <= y)%Z.

(** The exchange of case on the letters of ASCII alone: [a] to [z] for
    [A] to [Z], and back. *)
Definition ascii_lower_char (c : ascii) : ascii :=
  if is_upper c then ascii_of_N (N_of_ascii c + 32) else c.

Definition ascii_upper_char (c : ascii) : ascii :=
  if is_lower c then ascii_of_N (N_of_ascii c - 32) else c.

(** The upper case of [c] is one character of the type: [c] is none of the
    code points 181, 223 and 255. *)
Definition upper_is_a_character (c : ascii) : bool :=
  negb ((N_of_ascii c =? 181) || (N_of_ascii c =? 223) || (N_of_ascii c =? 255))%N.

(** The key under which [case_insensitive_add_char] counts a
    one-character string. *)
Definition count_key (c : ascii) : list ascii :=
  if is_space_char c then str "whitespace" else [lower_char c].

(** * Properties *)

(** ** The built-ins *)

Lemma bind_Ok {A B : Type} (r : result A) (k : A -> result B) (b : B) :
  bind r k = Ok b <-> exists a, r = Ok a /\ k a = Ok b.
Proof.
  destruct r as [a|e]; simpl.
  - split; [eauto | intros (a' & [= ->] & Hk); exact Hk].
  - split; [discriminate | intros (a' & [=] & _)].
Qed.

Lemma index_Some l x i :
  index l x = Some i -> l !! i = Some x /\ forall j, j < i -> l !! j ≠ Some x.
Proof.
  revert i. induction l as [|y l IH]; intros i; simpl; [discriminate|].
  case_decide as Hy.
  - intros [= <-]. subst y. split; [reflexivity | intros j Hj; lia].
  - destruct (index l x) as [k|]; simpl; [|discriminate].
    intros [= <-]. destruct (IH k eq_refl) as [Hk Hmin].
    split; [exact Hk|]. intros [|j] Hj; simpl.
    + congruence.
    + apply Hmin. lia.
Qed.

Lemma index_None l x : index l x = None <-> x ∉ l.
Proof.
  induction l as [|y l IH]; simpl.
  - split; [intros _; apply not_elem_of_nil | reflexivity].
  - rewrite not_elem_of_cons. case_decide as Hy.
    + split; [discriminate | intros [Hne _]; congruence].
    + destruct (index l x); simpl.
      * split; [discriminate | intros [_ Hl]; apply IH in Hl; discriminate].
      * split; [intros _; split; [congruence | by apply IH] | reflexivity].
Qed.

Lemma index_elem_of l x : x ∈ l -> exists i, index l x = Some i.
Proof.
  intros Hx. destruct (index l x) as [i|] eqn:E; [eauto|].
  apply index_None in E. contradiction.
Qed.

Lemma index_lt l x i : index l x = Some i -> i < length l.
Proof. intros H. apply index_Some in H as [H _]. by eapply lookup_lt_Some. Qed.

Lemma index_NoDup l x i : NoDup l -> l !! i = Some x -> index l x = Some i.
Proof.
  intros Hnd Hi. destruct (index_elem_of l x) as [j Hj].
  { by eapply list_elem_of_lookup_2. }
  rewrite Hj. f_equal. apply index_Some in Hj as [Hj _].
  by eapply NoDup_lookup.
Qed.

(** ** [_apply_mapping] *)

Lemma mapping_loop_total msg src dst acc :
  length src <= length dst ->
  for_in msg (mapping_loop_body src dst) acc = Ok (acc ++ (mapped src dst <$> msg)).
Proof.
  intros Hlen. revert acc.
  induction msg as [|c msg IH]; intros acc; simpl.
  - by rewrite app_nil_r.
  - unfold mapping_loop_body, mapped at 1, getitem.
    destruct (index src c) as [i|] eqn:E.
    + destruct (lookup_lt_is_Some_2 dst i) as [y Hy].
      { apply index_lt in E. lia. }
      rewrite Hy. simpl. rewrite IH. by rewrite <- app_assoc.
    + simpl. rewrite IH. by rewrite <- app_assoc.
Qed.

Lemma apply_mapping_total msg src dst :
  length src <= length dst ->
  _apply_mapping msg src dst = Ok (mapped src dst <$> msg).
Proof.
  intros Hlen. unfold _apply_mapping. by rewrite mapping_loop_total.
Qed.

Lemma mapped_elem_of src dst c i :
  index src c = Some i -> i < length dst -> dst !! i = Some (mapped src dst c).
Proof.
  intros E Hi. unfold mapped. rewrite E.
  destruct (lookup_lt_is_Some_2 dst i Hi) as [y Hy]. by rewrite Hy.
Qed.

Lemma mapped_not_elem_of src dst c : c ∉ src -> mapped src dst c = c.
Proof. intros Hc. unfold mapped. apply index_None in Hc. by rewrite Hc. Qed.

(** A mapping onto a duplicate-free destination is undone by the mapping in
    the opposite direction. *)
Lemma mapped_mapped src dst c :
  NoDup dst -> length src = length dst -> (forall x, x ∈ src <-> x ∈ dst) ->
  mapped dst src (mapped src dst c) = c.
Proof.
  intros Hnd Hlen Hset.
  destruct (index src c) as [i|] eqn:E.
  - pose proof (index_lt _ _ _ E) as Hi.
    pose proof (mapped_elem_of src dst c i E ltac:(lia)) as Hd.
    apply (index_NoDup _ _ _ Hnd) in Hd.
    unfold mapped at 1. rewrite Hd.
    apply index_Some in E as [-> _]. reflexivity.
  - apply index_None in E. rewrite (mapped_not_elem_of src dst c E).
    apply mapped_not_elem_of. by rewrite <- Hset.
Qed.

Lemma same_set_NoDup (l k : list ascii) :
  length l = length k -> (forall x, x ∈ l <-> x ∈ k) -> NoDup l -> NoDup k.
Proof.
  intros Hlen Hset Hnd.
  assert (l ≡ₚ k) as <-; [|assumption].
  apply submseteq_length_Permutation; [|lia].
  apply NoDup_submseteq; [assumption|]. intros x. apply Hset.
Qed.

(** ** [_generate_inverse] *)

Lemma inverse_loop_total pt ct l acc :
  (forall x, x ∈ l -> x ∈ ct) -> length ct <= length pt ->
  for_in l (inverse_loop_body pt ct) acc = Ok (acc ++ (mapped ct pt <$> l)).
Proof.
  intros Hin Hlen. revert acc.
  induction l as [|c l IH]; intros acc; simpl.
  - by rewrite app_nil_r.
  - unfold inverse_loop_body, index_exn.
    destruct (index_elem_of ct c) as [i E]; [apply Hin; left|].
    rewrite E. simpl. unfold getitem.
    rewrite (mapped_elem_of ct pt c i E); [|apply index_lt in E; lia].
    simpl. rewrite IH; [by rewrite <- app_assoc|].
    intros x Hx. apply Hin. by right.
Qed.

Lemma generate_inverse_total pt ct :
  (forall x, x ∈ pt -> x ∈ ct) -> length ct <= length pt ->
  _generate_inverse pt ct = Ok (mapped ct pt <$> pt).
Proof. intros Hin Hlen. unfold _generate_inverse. by rewrite inverse_loop_total. Qed.

(** At the positions of the plaintext alphabet, the inverse alphabet holds
    the images under the mapping from ciphertext to plaintext. *)
Lemma mapped_inverse pt ct c :
  (forall x, x ∈ pt <-> x ∈ ct) ->
  mapped pt (mapped ct pt <$> pt) c = mapped ct pt c.
Proof.
  intros Hset. destruct (index pt c) as [i|] eqn:E.
  - unfold mapped at 1. rewrite E, list_lookup_fmap.
    apply index_Some in E as [-> _]. reflexivity.
  - apply index_None in E. rewrite (mapped_not_elem_of pt _ c E).
    symmetry. apply mapped_not_elem_of. by rewrite <- Hset.
Qed.

(** ** [Cipher.__init__] *)

Lemma same_set_iff (l k : list ascii) :
  (list_to_set l : gset ascii) = list_to_set k <-> forall x, x ∈ l <-> x ∈ k.
Proof.
  rewrite set_eq. by setoid_rewrite elem_of_list_to_set.
Qed.

Lemma Cipher_init_Ok ct pt :
  length pt = length ct -> (forall x, x ∈ pt <-> x ∈ ct) ->
  Cipher.__init__ ct pt = Ok (mkCipher pt ct (mapped ct pt <$> pt)).
Proof.
  intros Hlen Hset. unfold Cipher.__init__.
  case_decide as H1; [contradiction|].
  case_decide as H2; [by rewrite <- same_set_iff in Hset|].
  rewrite generate_inverse_total; [reflexivity | apply Hset | lia].
Qed.

Lemma Cipher_init_Permutation ct pt :
  ct ≡ₚ pt ->
  Cipher.__init__ ct pt = Ok (mkCipher pt ct (mapped ct pt <$> pt)).
Proof.
  intros Hperm. apply Cipher_init_Ok.
  - symmetry. by apply Permutation_length.
  - intros x. symmetry. by apply elem_of_Permutation_proper.
Qed.

Lemma Cipher_init_inv ct pt c :
  Cipher.__init__ ct pt = Ok c ->
  length pt = length ct /\ (forall x, x ∈ pt <-> x ∈ ct) /\
  c = mkCipher pt ct (mapped ct pt <$> pt).
Proof.
  intros H. unfold Cipher.__init__ in H.
  case_decide as H1; [discriminate|].
  case_decide as H2; [discriminate|]. rewrite same_set_iff in H2.
  pose proof (Cipher_init_Ok ct pt H1 H2) as H'.
  unfold Cipher.__init__ in H'.
  rewrite decide_False, decide_False in H' by (rewrite ?same_set_iff; tauto).
  split; [assumption|]. split; [assumption|]. congruence.
Qed.

Lemma encrypt_total ct pt c s :
  Cipher.__init__ ct pt = Ok c -> Cipher.encrypt c s = Ok (mapped pt ct <$> s).
Proof.
  intros (Hlen & _ & ->)%Cipher_init_inv. unfold Cipher.encrypt. simpl.
  apply apply_mapping_total. lia.
Qed.

Lemma decrypt_total ct pt c s :
  Cipher.__init__ ct pt = Ok c -> Cipher.decrypt c s = Ok (mapped ct pt <$> s).
Proof.
  intros (Hlen & Hset & ->)%Cipher_init_inv. unfold Cipher.decrypt. simpl.
  rewrite apply_mapping_total by (rewrite length_fmap; lia).
  f_equal. apply list_fmap_ext. intros _ x _. by apply mapped_inverse.
Qed.

Lemma decrypt_encrypt_NoDup ct pt c s :
  NoDup pt -> Cipher.__init__ ct pt = Ok c ->
  bind (Cipher.encrypt c s) (Cipher.decrypt c) = Ok s.
Proof.
  intros Hnd Hc. rewrite (encrypt_total ct pt c s Hc). simpl.
  rewrite (decrypt_total ct pt c _ Hc). f_equal.
  apply Cipher_init_inv in Hc as (Hlen & Hset & _).
  rewrite <- list_fmap_compose. rewrite <- (list_fmap_id s) at 2.
  apply list_fmap_ext. intros _ x _. simpl.
  apply mapped_mapped; [by eapply same_set_NoDup | assumption..].
Qed.

Lemma encrypt_decrypt_NoDup ct pt c s :
  NoDup pt -> Cipher.__init__ ct pt = Ok c ->
  bind (Cipher.decrypt c s) (Cipher.encrypt c) = Ok s.
Proof.
  intros Hnd Hc. rewrite (decrypt_total ct pt c s Hc). simpl.
  rewrite (encrypt_total ct pt c _ Hc). f_equal.
  apply Cipher_init_inv in Hc as (Hlen & Hset & _).
  rewrite <- list_fmap_compose. rewrite <- (list_fmap_id s) at 2.
  apply list_fmap_ext. intros _ x _. simpl.
  apply mapped_mapped; [assumption | lia | intros y; symmetry; apply Hset].
Qed.

(** ** [_generate_keyword_based_ciphertext_alphabet] *)

Lemma delete_index l c i : index l c = Some i -> delete i l = remove_first c l.
Proof.
  revert i. induction l as [|y l IH]; intros i; simpl; [discriminate|].
  case_decide as Hy.
  - by intros [= <-].
  - destruct (index l c) as [k|]; simpl; [|discriminate].
    intros [= <-]. simpl. f_equal. by apply IH.
Qed.

Lemma keyword_body_present work out c :
  c ∈ work ->
  keyword_loop_body (work, out) c = Ok (remove_first c work, out ++ [c]).
Proof.
  intros Hc. unfold keyword_loop_body, pop.
  destruct (index_elem_of work c Hc) as [i E]. rewrite E.
  pose proof (delete_index _ _ _ E) as <-.
  apply index_Some in E as [-> _]. reflexivity.
Qed.

Lemma keyword_body_consumed work out c :
  c ∉ work -> c ∈ out -> keyword_loop_body (work, out) c = Ok (work, out).
Proof.
  intros Hw Ho. unfold keyword_loop_body, contains.
  apply index_None in Hw. rewrite Hw. by rewrite bool_decide_eq_true_2.
Qed.

Lemma keyword_body_absent work out c :
  c ∉ work -> c ∉ out ->
  keyword_loop_body (work, out) c = Raise (ValueError (keyword_not_in_alphabet ++ [c])).
Proof.
  intros Hw Ho. unfold keyword_loop_body, contains.
  apply index_None in Hw. rewrite Hw. by rewrite bool_decide_eq_false_2.
Qed.

Lemma remove_first_Permutation c l : c ∈ l -> l ≡ₚ c :: remove_first c l.
Proof.
  intros Hc. destruct (index_elem_of l c Hc) as [i E].
  rewrite <- (delete_index _ _ _ E).
  apply delete_Permutation. by apply index_Some in E as [? _].
Qed.

(** The characters moved and the characters left are, together, those the
    loop started from. *)
Lemma keyword_loop_Permutation key work out work' out' :
  for_in key keyword_loop_body (work, out) = Ok (work', out') ->
  out' ++ work' ≡ₚ out ++ work.
Proof.
  revert work out. induction key as [|c key IH]; intros work out; cbn [for_in].
  - by intros [= -> ->].
  - destruct (decide (c ∈ work)) as [Hw|Hw].
    + rewrite keyword_body_present by assumption. cbn [bind].
      intros ->%IH. rewrite (remove_first_Permutation c work Hw) at 2.
      rewrite <- app_assoc. reflexivity.
    + destruct (decide (c ∈ out)) as [Ho|Ho].
      * rewrite keyword_body_consumed by assumption. cbn [bind]. apply IH.
      * rewrite keyword_body_absent by assumption. discriminate.
Qed.

Lemma keyword_loop_total key work out :
  (forall c, c ∈ key -> c ∈ work \/ c ∈ out) ->
  exists work' out', for_in key keyword_loop_body (work, out) = Ok (work', out').
Proof.
  revert work out. induction key as [|c key IH]; intros work out Hkey; cbn [for_in].
  - eauto.
  - destruct (decide (c ∈ work)) as [Hw|Hw].
    + rewrite keyword_body_present by assumption. cbn [bind]. apply IH.
      intros x Hx. rewrite elem_of_app, list_elem_of_singleton.
      destruct (decide (x = c)) as [->|Hne]; [by (right; right)|].
      destruct (Hkey x) as [Hxw|Hxo]; [by right | | by (right; left)].
      left. apply (elem_of_Permutation_proper _ _ _ (remove_first_Permutation c work Hw)) in Hxw.
      apply elem_of_cons in Hxw as [?|?]; [contradiction | assumption].
    + destruct (Hkey c) as [?|Ho]; [by left | contradiction |].
      rewrite keyword_body_consumed by assumption. cbn [bind]. apply IH.
      intros x Hx. apply Hkey. by right.
Qed.

Lemma keyword_based_Permutation alphabet key r :
  _generate_keyword_based_ciphertext_alphabet alphabet key = Ok r -> r ≡ₚ alphabet.
Proof.
  unfold _generate_keyword_based_ciphertext_alphabet, _list_to_string.
  intros ([work' out'] & Hloop & [= <-])%bind_Ok.
  apply keyword_loop_Permutation in Hloop. simpl in *. by rewrite Hloop.
Qed.

Lemma keyword_based_total alphabet key :
  (forall c, c ∈ key -> c ∈ alphabet) ->
  exists r, _generate_keyword_based_ciphertext_alphabet alphabet key = Ok r.
Proof.
  intros Hkey.
  destruct (keyword_loop_total key alphabet []) as (work' & out' & E).
  { intros c Hc. left. by apply Hkey. }
  unfold _generate_keyword_based_ciphertext_alphabet. rewrite E. simpl. eauto.
Qed.

(** The loop computes what the specification describes, from any state in
    which the working copy and the characters moved so far make up the
    alphabet. *)
Lemma keyword_loop_refines alphabet key work out :
  (forall x, x ∈ alphabet <-> x ∈ work \/ x ∈ out) ->
  bind (for_in key keyword_loop_body (work, out))
       (fun st => Ok (_list_to_string (st.2 ++ st.1)))
  = reorder_by_key_from alphabet work out key.
Proof.
  revert work out. induction key as [|c key IH]; intros work out Hinv;
    cbn [for_in reorder_by_key_from]; [reflexivity|].
  destruct (decide (c ∈ work)) as [Hw|Hw].
  - rewrite keyword_body_present, bool_decide_eq_true_2 by assumption.
    cbn [bind]. apply IH. intros x.
    rewrite Hinv, elem_of_app, list_elem_of_singleton.
    rewrite (elem_of_Permutation_proper x _ _ (remove_first_Permutation c work Hw)).
    rewrite elem_of_cons. tauto.
  - rewrite (bool_decide_eq_false_2 _ Hw).
    destruct (decide (c ∈ out)) as [Ho|Ho].
    + rewrite keyword_body_consumed, bool_decide_eq_true_2
        by (assumption || (apply Hinv; by right)).
      cbn [bind]. by apply IH.
    + rewrite keyword_body_absent, bool_decide_eq_false_2
        by (assumption || (rewrite Hinv; tauto)).
      reflexivity.
Qed.

Lemma keyword_based_refines alphabet key :
  _generate_keyword_based_ciphertext_alphabet alphabet key
  = reorder_by_key_spec alphabet key.
Proof.
  unfold _generate_keyword_based_ciphertext_alphabet, reorder_by_key_spec.
  apply keyword_loop_refines. intros x. rewrite elem_of_nil. tauto.
Qed.

Lemma filter_all (P : ascii -> Prop) `{!forall x, Decision (P x)} (l : list ascii) :
  (forall x, x ∈ l -> P x) -> filter P l = l.
Proof.
  induction l as [|y l IH]; intros HP; [reflexivity|].
  rewrite filter_cons_True by (apply HP; left).
  f_equal. apply IH. intros x Hx. apply HP. by right.
Qed.

Lemma remove_first_NoDup c l :
  NoDup l -> remove_first c l = filter (fun x => x ≠ c) l.
Proof.
  induction 1 as [|y l Hy Hnd IH]; simpl; [reflexivity|].
  case_decide as Hc.
  - subst y. rewrite filter_cons_False by (intros Hne; by apply Hne).
    symmetry. apply filter_all. intros x Hx ->. contradiction.
  - rewrite filter_cons_True by assumption. by rewrite IH.
Qed.

(** On a duplicate-free alphabet the loop has a closed form: the working
    copy is the alphabet without the characters moved, and the characters
    moved are the key characters in order of first occurrence. *)
Lemma keyword_loop_closed alphabet key out :
  NoDup alphabet -> (forall c, c ∈ key -> c ∈ alphabet) ->
  for_in key keyword_loop_body (filter (fun x => x ∉ out) alphabet, out)
  = Ok (filter (fun x => x ∉ out ++ key) alphabet, out ++ first_occurrences out key).
Proof.
  intros Hnd. revert out. induction key as [|c key IH]; intros out Hkey;
    cbn [for_in first_occurrences].
  - by rewrite !app_nil_r.
  - assert (forall c, c ∈ key -> c ∈ alphabet) as Hkey'.
    { intros x Hx. apply Hkey. by right. }
    destruct (decide (c ∈ out)) as [Ho|Ho].
    + assert (c ∉ filter (fun x => x ∉ out) alphabet) as Hw.
      { rewrite list_elem_of_filter. tauto. }
      rewrite keyword_body_consumed, bool_decide_eq_true_2 by assumption.
      cbn [bind]. rewrite (IH out Hkey'). do 2 f_equal.
      apply list_filter_iff. intros x.
      rewrite !elem_of_app, elem_of_cons.
      split; intros Hx; [|tauto]. intros [?|[->|?]]; tauto.
    + assert (c ∈ filter (fun x => x ∉ out) alphabet) as Hw.
      { rewrite list_elem_of_filter. split; [assumption|]. apply Hkey. by left. }
      rewrite keyword_body_present, bool_decide_eq_false_2 by assumption.
      cbn [bind]. rewrite remove_first_NoDup by (by apply NoDup_filter).
      rewrite list_filter_filter.
      rewrite (list_filter_iff _ (fun x => x ∉ out ++ [c])).
      { rewrite (IH (out ++ [c]) Hkey'). by rewrite <- !app_assoc. }
      intros x. rewrite elem_of_app, list_elem_of_singleton. tauto.
Qed.

Lemma keyword_based_closed alphabet key :
  NoDup alphabet -> (forall c, c ∈ key -> c ∈ alphabet) ->
  _generate_keyword_based_ciphertext_alphabet alphabet key
  = Ok (first_occurrences [] key ++ filter (fun x => x ∉ key) alphabet).
Proof.
  intros Hnd Hkey. unfold _generate_keyword_based_ciphertext_alphabet.
  rewrite <- (filter_all (fun x => x ∉ []) alphabet) at 1
    by (intros x _; apply not_elem_of_nil).
  rewrite keyword_loop_closed by assumption. reflexivity.
Qed.

(** The first key character that the alphabet lacks is the one reported. *)
Lemma reorder_by_key_from_absent alphabet key1 c key2 working moved :
  (forall x, x ∈ working -> x ∈ alphabet) ->
  (forall x, x ∈ key1 -> x ∈ alphabet) -> c ∉ alphabet ->
  reorder_by_key_from alphabet working moved (key1 ++ c :: key2)
  = Raise (ValueError (keyword_not_in_alphabet ++ [c])).
Proof.
  intros Hsub Hkey1 Hc. revert working moved Hsub.
  induction key1 as [|k key1 IH]; intros working moved Hsub;
    cbn [app reorder_by_key_from].
  - rewrite !bool_decide_eq_false_2; [reflexivity | assumption |].
    intros Hw. by apply Hc, Hsub.
  - assert (forall x, x ∈ key1 -> x ∈ alphabet) as Hkey1'.
    { intros x Hx. apply Hkey1. by right. }
    destruct (decide (k ∈ working)) as [Hw|Hw].
    + rewrite (bool_decide_eq_true_2 _ Hw). apply (IH Hkey1').
      intros x Hx. apply Hsub.
      rewrite (elem_of_Permutation_proper x _ _ (remove_first_Permutation k working Hw)).
      by right.
    + rewrite (bool_decide_eq_false_2 _ Hw).
      rewrite bool_decide_eq_true_2 by (apply Hkey1; left).
      by apply (IH Hkey1').
Qed.

Lemma case_handled_Permutation alphabet key r :
  _generate_case_handled_ciphertext_alphabet alphabet key = Ok r -> r ≡ₚ chars alphabet.
Proof.
  unfold _generate_case_handled_ciphertext_alphabet. case_decide as Hletters.
  - intros (l & Hl & (u & Hu & [= <-])%bind_Ok)%bind_Ok. subst alphabet.
    apply keyword_based_Permutation in Hl, Hu. cbn [chars]. unfold ascii_letters.
    by rewrite Hl, Hu.
  - apply keyword_based_Permutation.
Qed.

(** ** [_generate_shifted_alphabet] *)

Lemma rotate_left_Permutation n alphabet : rotate_left n alphabet ≡ₚ alphabet.
Proof.
  unfold rotate_left. rewrite (comm (++)). by rewrite take_drop.
Qed.

Lemma rotate_left_lookup n alphabet i :
  n < length alphabet -> i < length alphabet ->
  rotate_left n alphabet !! i = alphabet !! ((n + i) mod length alphabet).
Proof.
  intros Hn Hi. unfold rotate_left.
  destruct (decide (n + i < length alphabet)) as [Hlt|Hge].
  - rewrite lookup_app_l by (rewrite length_drop; lia).
    rewrite lookup_drop. by rewrite Nat.mod_small.
  - rewrite lookup_app_r by (rewrite length_drop; lia).
    rewrite length_drop, lookup_take_lt by lia. f_equal.
    replace (n + i) with ((n + i - length alphabet) + 1 * length alphabet) by lia.
    rewrite Nat.Div0.mod_add, Nat.mod_small; lia.
Qed.

Lemma shifted_alphabet_Ok alphabet shift_amount :
  alphabet ≠ [] ->
  _generate_shifted_alphabet alphabet shift_amount
  = Ok (rotate_left (Z.to_nat (shift_amount mod Z.of_nat (length alphabet))) alphabet).
Proof.
  intros Hne. unfold _generate_shifted_alphabet.
  rewrite decide_False; [reflexivity|]. by destruct alphabet.
Qed.

Lemma normalized_amount (k len : Z) :
  (0 < len)%Z ->
  (((k mod len) + len) mod len = k mod len)%Z /\
  (((Z.rem k len) + len) mod len = k mod len)%Z.
Proof.
  intros Hlen. split.
  - replace (k mod len + len)%Z with (k mod len + 1 * len)%Z by lia.
    rewrite Z_mod_plus_full. apply Z.mod_mod. lia.
  - pose proof (Z.quot_rem' k len) as Hk.
    replace (Z.rem k len + len)%Z with (k + (1 - Z.quot k len) * len)%Z by lia.
    apply Z_mod_plus_full.
Qed.

(** * The claims of the specification *)

(** A closed decidable proposition, settled by evaluating its decision
    procedure. *)
Ltac by_evaluation := apply (bool_decide_unpack _); vm_compute; exact I.

(** A closed statement about all elements of a concrete list. *)
Ltac by_evaluation_on_elements := apply (proj1 (Forall_forall _ _)); by_evaluation.

(** C1.  The specification promises [decrypt(encrypt(s)) == s] for every
    alphabet pair the constructor accepts.  The constructor accepts the
    pair ["aab"], ["bab"] (same length, same character set), and on the
    cipher it builds the character ["b"] encrypts to ["b"], which decrypts
    to ["a"]: the round trip is lost because alphabets with a repeated
    character are not rejected. *)
Theorem C1_round_trip_lost_on_repeated_characters :
  exists c,
    Cipher.__init__ (str "bab") (str "aab") = Ok c /\
    bind (Cipher.encrypt c (str "b")) (Cipher.decrypt c) = Ok (str "a").
Proof. eexists. split; reflexivity. Qed.

(** C2, the claim as stated, fails: for key ["b"], shift 1 and base
    alphabet ["abc"] the cipher built with [shift_first = False] has the
    plaintext alphabet ["bac"], not the base alphabet. *)
Lemma C2_plaintext_is_not_the_base_alphabet :
  exists c,
    get_combined_cipher (str "b") 1 (Some (PyStr (str "abc"))) false = Ok c /\
    plaintext_list c = str "bac" /\
    plaintext_list c ≠ str "abc".
Proof. eexists. split; [reflexivity|]. split; [reflexivity | discriminate]. Qed.

(** C2, amended.  With [shift_first = False], whenever the key reorders the
    non-empty base alphabet into an intermediate alphabet, the combined
    builder returns a cipher whose plaintext alphabet is that intermediate
    (key-reordered) alphabet and whose ciphertext alphabet is the
    intermediate alphabet rotated left by the shift amount modulo its
    length. *)
Theorem C2_key_then_shift key shift_amount plaintext_alphabet intermediate :
  chars (default (PyList PRINTABLE_ASCII_ALPHABET) plaintext_alphabet) ≠ [] ->
  _generate_case_handled_ciphertext_alphabet
    (default (PyList PRINTABLE_ASCII_ALPHABET) plaintext_alphabet) key = Ok intermediate ->
  exists c,
    get_combined_cipher key shift_amount plaintext_alphabet false = Ok c /\
    plaintext_list c = intermediate /\
    ciphertext_list c
    = rotate_left (Z.to_nat (shift_amount mod Z.of_nat (length intermediate)))
        intermediate.
Proof.
  intros Hne Hkey. unfold get_combined_cipher. rewrite Hkey. cbn [bind].
  unfold ShiftedCipher.__init__. cbn [from_option id].
  assert (intermediate ≠ []) as Hne'.
  { intros ->. apply case_handled_Permutation, Permutation_nil_l in Hkey.
    by apply Hne. }
  rewrite shifted_alphabet_Ok by assumption. cbn [bind].
  rewrite Cipher_init_Permutation by apply rotate_left_Permutation.
  eexists. split; [reflexivity|]. split; reflexivity.
Qed.

Lemma C2_key_then_shift_witness :
  exists c,
    get_combined_cipher (str "b") 1 (Some (PyStr (str "abc"))) false = Ok c /\
    plaintext_list c = str "bac" /\
    ciphertext_list c
    = rotate_left (Z.to_nat (1 mod Z.of_nat (length (str "bac")))) (str "bac").
Proof.
  apply (C2_key_then_shift (str "b") 1 (Some (PyStr (str "abc"))) (str "bac")).
  - discriminate.
  - reflexivity.
Defined.

(** C3.  The specification has construction fail whenever an alphabet
    repeats a character.  Both ["aab"] and ["bab"] repeat a character, and
    the constructor returns a cipher for them: the two checks (equal
    length, equal character set) do not see the repetition. *)
Theorem C3_repeated_characters_accepted :
  ¬ NoDup (str "aab") /\ ¬ NoDup (str "bab") /\
  Cipher.__init__ (str "bab") (str "aab")
  = Ok (mkCipher (str "aab") (str "bab") (str "aaa")) /\
  ¬ fails_with_InvalidArgument (Cipher.__init__ (str "bab") (str "aab")).
Proof.
  split; [|split; [|split]].
  - intros [Ha _]%NoDup_cons. apply Ha. left.
  - intros [Hb _]%NoDup_cons. apply Hb. right. left.
  - reflexivity.
  - intros [msg Hmsg]. discriminate Hmsg.
Qed.

(** C4, the claim as stated, fails: the shift of the empty alphabet raises
    [ZeroDivisionError], which is not the [ValueError] that stands for
    [InvalidArgument]. *)
Lemma C4_empty_alphabet_is_not_InvalidArgument :
  _generate_shifted_alphabet [] 1 = Raise ZeroDivisionError /\
  ¬ fails_with_InvalidArgument (_generate_shifted_alphabet [] 1).
Proof.
  split; [reflexivity|]. intros [msg Hmsg]. discriminate Hmsg.
Qed.

(** C4, amended.  On an alphabet of length 0 the shift fails with
    [ZeroDivisionError].  On any other alphabet it returns the alphabet
    rotated left by [n = ((amount % length) + length) % length] positions,
    where [n] lies in [[0, length)] and is the same number whether [%]
    rounds towards minus infinity or towards zero; position [i] of the
    result holds the character at position [(n + i) mod length] of the
    alphabet. *)
Theorem C4_shift alphabet amount :
  (length alphabet = 0 ->
   _generate_shifted_alphabet alphabet amount = Raise ZeroDivisionError) /\
  (length alphabet ≠ 0 ->
   let len := Z.of_nat (length alphabet) in
   let n := (((amount mod len) + len) mod len)%Z in
   (0 <= n < len)%Z /\
   n = (((Z.rem amount len) + len) mod len)%Z /\
   _generate_shifted_alphabet alphabet amount = Ok (rotate_left (Z.to_nat n) alphabet) /\
   forall i, i < length alphabet ->
     rotate_left (Z.to_nat n) alphabet !! i
     = alphabet !! ((Z.to_nat n + i) mod length alphabet)).
Proof.
  split.
  - intros Hlen. unfold _generate_shifted_alphabet. by rewrite decide_True.
  - intros Hlen len n.
    assert (0 < len)%Z as Hpos by (subst len; lia).
    destruct (normalized_amount amount len Hpos) as [Hfloor Htrunc].
    assert (0 <= n < len)%Z as Hn by (subst n; apply Z.mod_pos_bound; lia).
    split; [exact Hn|]. split; [subst n; congruence|]. split.
    + rewrite shifted_alphabet_Ok by (by destruct alphabet).
      subst n. fold len. by rewrite Hfloor.
    + intros i Hi. apply rotate_left_lookup; [|assumption]. subst len. lia.
Qed.

Lemma C4_shift_witness :
  _generate_shifted_alphabet [] 5 = Raise ZeroDivisionError /\
  _generate_shifted_alphabet (str "abcde") (-2) = Ok (str "deabc").
Proof.
  split.
  - apply (C4_shift [] 5). reflexivity.
  - apply (C4_shift (str "abcde") (-2)). discriminate.
Defined.

(** C5.  Construction fails with [InvalidArgument] when the two alphabets
    differ in length (with the message about character counts), fails with
    [InvalidArgument] when they are not the same set of characters, and
    succeeds, keeping both alphabets, whenever the ciphertext alphabet is a
    permutation of the plaintext alphabet. *)
Theorem C5_construction_contract ciphertext_alphabet plaintext_alphabet :
  (length plaintext_alphabet ≠ length ciphertext_alphabet ->
   Cipher.__init__ ciphertext_alphabet plaintext_alphabet
   = Raise (ValueError different_character_counts)) /\
  (¬ (forall x, x ∈ plaintext_alphabet <-> x ∈ ciphertext_alphabet) ->
   fails_with_InvalidArgument (Cipher.__init__ ciphertext_alphabet plaintext_alphabet)) /\
  (ciphertext_alphabet ≡ₚ plaintext_alphabet ->
   exists c,
     Cipher.__init__ ciphertext_alphabet plaintext_alphabet = Ok c /\
     plaintext_list c = plaintext_alphabet /\
     ciphertext_list c = ciphertext_alphabet).
Proof.
  split; [|split].
  - intros Hlen. unfold Cipher.__init__. by rewrite decide_True.
  - intros Hset. unfold Cipher.__init__, fails_with_InvalidArgument.
    case_decide as H1; [eauto|]. case_decide as H2; [eauto|].
    rewrite same_set_iff in H2. contradiction.
  - intros Hperm. rewrite Cipher_init_Permutation by assumption.
    eexists. split; [reflexivity|]. split; reflexivity.
Qed.

Lemma C5_construction_contract_witness :
  Cipher.__init__ (str "abcd") (str "abc")
  = Raise (ValueError different_character_counts) /\
  fails_with_InvalidArgument (Cipher.__init__ (str "abd") (str "abc")) /\
  exists c,
    Cipher.__init__ (str "cab") (str "abc") = Ok c /\
    plaintext_list c = str "abc" /\ ciphertext_list c = str "cab".
Proof.
  split; [|split].
  - apply (C5_construction_contract (str "abcd") (str "abc")). simpl. lia.
  - apply (C5_construction_contract (str "abd") (str "abc")).
    intros Hset.
    assert ("c"%char ∈ str "abd") as Hc.
    { apply Hset. by_evaluation. }
    revert Hc. by_evaluation.
  - apply (C5_construction_contract (str "cab") (str "abc")).
    by_evaluation.
Defined.

(** C6.  [_generate_keyword_based_ciphertext_alphabet] computes
    [reorder_by_key] as the specification words it: key characters are
    processed in order, each moving the first unconsumed occurrence in the
    alphabet behind the characters moved before it; a key character already
    consumed is skipped; the remaining characters follow in their original
    order.  The first key character that the alphabet lacks makes it fail
    with [InvalidArgument] and a message that ends in that character.  On a
    duplicate-free alphabet that holds every key character, the result is
    the key characters in order of first occurrence, then the alphabet
    characters that are not in the key.  Alphabet ["0123456789"] with key
    ["5158414"] yields ["5184023679"]. *)
Theorem C6_reorder_by_key alphabet key :
  _generate_keyword_based_ciphertext_alphabet alphabet key
  = reorder_by_key_spec alphabet key /\
  (forall key1 c key2,
     key = key1 ++ c :: key2 ->
     (forall x, x ∈ key1 -> x ∈ alphabet) -> c ∉ alphabet ->
     _generate_keyword_based_ciphertext_alphabet alphabet key
     = Raise (ValueError (keyword_not_in_alphabet ++ [c]))) /\
  (NoDup alphabet -> (forall c, c ∈ key -> c ∈ alphabet) ->
   _generate_keyword_based_ciphertext_alphabet alphabet key
   = Ok (first_occurrences [] key ++ filter (fun x => x ∉ key) alphabet)) /\
  _generate_keyword_based_ciphertext_alphabet (str "0123456789") (str "5158414")
  = Ok (str "5184023679").
Proof.
  assert (_generate_keyword_based_ciphertext_alphabet alphabet key
          = reorder_by_key_spec alphabet key) as Hspec.
  { unfold _generate_keyword_based_ciphertext_alphabet, reorder_by_key_spec.
    apply keyword_loop_refines. intros x. rewrite elem_of_nil. tauto. }
  split; [exact Hspec|]. split; [|split].
  - intros key1 c key2 -> Hkey1 Hc. rewrite Hspec.
    by apply reorder_by_key_from_absent.
  - apply keyword_based_closed.
  - reflexivity.
Qed.

Lemma C6_reorder_by_key_witness :
  _generate_keyword_based_ciphertext_alphabet (str "0123456789") (str "51x8")
  = Raise (ValueError (keyword_not_in_alphabet ++ ["x"%char])) /\
  _generate_keyword_based_ciphertext_alphabet (str "0123456789") (str "5158414")
  = Ok (first_occurrences [] (str "5158414")
        ++ filter (fun x => x ∉ str "5158414") (str "0123456789")).
Proof.
  split.
  - destruct (C6_reorder_by_key (str "0123456789") (str "51x8"))
      as (_ & Habsent & _).
    apply (Habsent (str "51") "x"%char (str "8")).
    + reflexivity.
    + by_evaluation_on_elements.
    + by_evaluation.
  - destruct (C6_reorder_by_key (str "0123456789") (str "5158414"))
      as (_ & _ & Hclosed & _).
    apply Hclosed.
    + by_evaluation.
    + by_evaluation_on_elements.
Defined.




(** C8.  For every alphabet and every key whose characters all occur in the
    alphabet, [_generate_keyword_based_ciphertext_alphabet] returns a
    permutation of the alphabet: the same multiset of characters, hence the
    same length. *)
Theorem C8_reorder_is_permutation alphabet key :
  (forall c, c ∈ key -> c ∈ alphabet) ->
  exists r,
    _generate_keyword_based_ciphertext_alphabet alphabet key = Ok r /\
    r ≡ₚ alphabet /\ length r = length alphabet.
Proof.
  intros Hkey. destruct (keyword_based_total alphabet key Hkey) as [r Hr].
  exists r. split; [exact Hr|].
  apply keyword_based_Permutation in Hr.
  split; [exact Hr | by apply Permutation_length].
Qed.

Lemma C8_reorder_is_permutation_witness :
  exists r,
    _generate_keyword_based_ciphertext_alphabet (str "hello") (str "lol") = Ok r /\
    r ≡ₚ str "hello" /\ length r = length (str "hello").
Proof.
  apply (C8_reorder_is_permutation (str "hello") (str "lol")).
  by_evaluation_on_elements.
Defined.

(** C9.  On every constructed cipher, [encrypt] and [decrypt] return a
    string for every input string, of the length of the input, and every
    character of the input that is not in the plaintext alphabet stands
    unchanged at its position in the output. *)
Theorem C9_encrypt_decrypt_total ciphertext_alphabet plaintext_alphabet c s :
  Cipher.__init__ ciphertext_alphabet plaintext_alphabet = Ok c ->
  (exists e,
     Cipher.encrypt c s = Ok e /\ length e = length s /\
     forall i ch, s !! i = Some ch -> ch ∉ plaintext_list c -> e !! i = Some ch) /\
  (exists d,
     Cipher.decrypt c s = Ok d /\ length d = length s /\
     forall i ch, s !! i = Some ch -> ch ∉ plaintext_list c -> d !! i = Some ch).
Proof.
  intros Hc.
  pose proof (encrypt_total _ _ _ s Hc) as He.
  pose proof (decrypt_total _ _ _ s Hc) as Hd.
  apply Cipher_init_inv in Hc as (Hlen & Hset & ->). cbn [plaintext_list].
  split; eexists; (split; [eassumption|]);
    (split; [by rewrite length_fmap|]);
    intros i ch Hi Hch; rewrite list_lookup_fmap, Hi; cbn; f_equal;
    apply mapped_not_elem_of; [assumption | by rewrite <- Hset].
Qed.

Lemma C9_encrypt_decrypt_total_witness :
  (exists e,
     Cipher.encrypt (mkCipher (str "abc") (str "bca") (str "cab")) (str "a-b c!") = Ok e /\
     length e = 6 /\
     forall i ch, str "a-b c!" !! i = Some ch -> ch ∉ str "abc" -> e !! i = Some ch) /\
  (exists d,
     Cipher.decrypt (mkCipher (str "abc") (str "bca") (str "cab")) (str "a-b c!") = Ok d /\
     length d = 6 /\
     forall i ch, str "a-b c!" !! i = Some ch -> ch ∉ str "abc" -> d !! i = Some ch).
Proof.
  apply (C9_encrypt_decrypt_total (str "bca") (str "abc")). reflexivity.
Defined.

(** C10.  On every cipher constructed from duplicate-free alphabets,
    [encrypt(decrypt(s)) == s] for every string [s], whatever characters it
    holds. *)
Theorem C10_encrypt_after_decrypt ciphertext_alphabet plaintext_alphabet c s :
  NoDup plaintext_alphabet -> NoDup ciphertext_alphabet ->
  Cipher.__init__ ciphertext_alphabet plaintext_alphabet = Ok c ->
  exists d, Cipher.decrypt c s = Ok d /\ Cipher.encrypt c d = Ok s.
Proof.
  intros Hpt _ Hc.
  pose proof (encrypt_decrypt_NoDup _ _ _ s Hpt Hc) as Hround.
  apply bind_Ok in Hround. exact Hround.
Qed.

Lemma C10_encrypt_after_decrypt_witness :
  exists d,
    Cipher.decrypt (mkCipher (str "abc") (str "bca") (str "cab")) (str "a-b c!") = Ok d /\
    Cipher.encrypt (mkCipher (str "abc") (str "bca") (str "cab")) d = Ok (str "a-b c!").
Proof.
  apply (C10_encrypt_after_decrypt (str "bca") (str "abc")).
  - by_evaluation.
  - by_evaluation.
  - reflexivity.
Defined.

(** * Further properties of the code *)

(** ** Shifts compose *)

Lemma length_rotate_left n alphabet : length (rotate_left n alphabet) = length alphabet.
Proof. apply Permutation_length, rotate_left_Permutation. Qed.

Lemma rotate_left_0 alphabet : rotate_left 0 alphabet = alphabet.
Proof. unfold rotate_left. by rewrite drop_0, take_0, app_nil_r. Qed.

Lemma rotate_left_rotate_left m n alphabet :
  m < length alphabet -> n < length alphabet ->
  rotate_left n (rotate_left m alphabet)
  = rotate_left ((m + n) mod length alphabet) alphabet.
Proof.
  intros Hm Hn. apply list_eq. intros i.
  destruct (decide (i < length alphabet)) as [Hi|Hi].
  - rewrite rotate_left_lookup by (rewrite ?length_rotate_left; lia).
    rewrite length_rotate_left.
    rewrite rotate_left_lookup by (try apply Nat.mod_upper_bound; lia).
    rewrite rotate_left_lookup by (try apply Nat.mod_upper_bound; lia).
    f_equal. rewrite Nat.Div0.add_mod_idemp_r, Nat.Div0.add_mod_idemp_l.
    f_equal. lia.
  - rewrite !lookup_ge_None_2; [reflexivity | rewrite ?length_rotate_left; lia..].
Qed.

Lemma to_nat_mod_add (j k : Z) (len : nat) :
  len ≠ 0 ->
  (Z.to_nat (j mod Z.of_nat len) + Z.to_nat (k mod Z.of_nat len)) mod len
  = Z.to_nat ((j + k) mod Z.of_nat len).
Proof.
  intros Hlen. apply Nat2Z.inj.
  pose proof (Z.mod_pos_bound j (Z.of_nat len) ltac:(lia)).
  pose proof (Z.mod_pos_bound k (Z.of_nat len) ltac:(lia)).
  pose proof (Z.mod_pos_bound (j + k) (Z.of_nat len) ltac:(lia)).
  rewrite Nat2Z.inj_mod, Nat2Z.inj_add, !Z2Nat.id by lia.
  symmetry. apply Zplus_mod.
Qed.

Lemma shift_amount_lt (k : Z) (len : nat) :
  len ≠ 0 -> Z.to_nat (k mod Z.of_nat len) < len.
Proof.
  intros Hlen. pose proof (Z.mod_pos_bound k (Z.of_nat len) ltac:(lia)). lia.
Qed.

(** X1.  Shifting by [j] and then by [k] is shifting by [j + k]: on every
    non-empty alphabet the shifted alphabet of the shifted alphabet is the
    alphabet shifted by the sum of the two amounts. *)
Theorem X1_shift_composes alphabet (j k : Z) :
  alphabet ≠ [] ->
  bind (_generate_shifted_alphabet alphabet j)
       (fun shifted => _generate_shifted_alphabet shifted k)
  = _generate_shifted_alphabet alphabet (j + k).
Proof.
  intros Hne. assert (length alphabet ≠ 0) as Hlen by (by destruct alphabet).
  rewrite !shifted_alphabet_Ok by assumption. cbn [bind].
  rewrite shifted_alphabet_Ok
    by (intros Hnil; apply (f_equal length) in Hnil;
        rewrite length_rotate_left in Hnil; by destruct alphabet).
  rewrite length_rotate_left. f_equal.
  rewrite rotate_left_rotate_left by (by apply shift_amount_lt).
  by rewrite to_nat_mod_add.
Qed.

Lemma X1_shift_composes_witness :
  bind (_generate_shifted_alphabet (str "abcde") 7)
       (fun shifted => _generate_shifted_alphabet shifted (-3))
  = _generate_shifted_alphabet (str "abcde") (7 + -3).
Proof. apply (X1_shift_composes (str "abcde") 7 (-3)). discriminate. Defined.

(** X2.  On a non-empty alphabet a shift is undone by the shift of the
    opposite amount, the shift by 0 changes nothing, and amounts that
    differ by a multiple of the length give the same alphabet. *)
Theorem X2_shift_inverse_and_period alphabet (k m : Z) :
  alphabet ≠ [] ->
  bind (_generate_shifted_alphabet alphabet k)
       (fun shifted => _generate_shifted_alphabet shifted (- k)) = Ok alphabet /\
  _generate_shifted_alphabet alphabet 0 = Ok alphabet /\
  _generate_shifted_alphabet alphabet (k + m * Z.of_nat (length alphabet))
  = _generate_shifted_alphabet alphabet k.
Proof.
  intros Hne.
  assert (_generate_shifted_alphabet alphabet 0 = Ok alphabet) as Hzero.
  { rewrite shifted_alphabet_Ok by assumption.
    rewrite Z.mod_0_l by (destruct alphabet; [done | cbn; lia]).
    by rewrite rotate_left_0. }
  split; [|split].
  - assert (length alphabet ≠ 0) as Hlen by (by destruct alphabet).
    rewrite shifted_alphabet_Ok by assumption. cbn [bind].
    rewrite shifted_alphabet_Ok
      by (intros Hnil; apply (f_equal length) in Hnil;
          rewrite length_rotate_left in Hnil; by destruct alphabet).
    rewrite length_rotate_left.
    rewrite rotate_left_rotate_left by (by apply shift_amount_lt).
    rewrite to_nat_mod_add by assumption.
    rewrite Z.add_opp_diag_r, Z.mod_0_l by lia. by rewrite rotate_left_0.
  - exact Hzero.
  - rewrite !shifted_alphabet_Ok by assumption. by rewrite Z_mod_plus_full.
Qed.

Lemma X2_shift_inverse_and_period_witness :
  bind (_generate_shifted_alphabet (str "abcde") 7)
       (fun shifted => _generate_shifted_alphabet shifted (- 7)) = Ok (str "abcde") /\
  _generate_shifted_alphabet (str "abcde") 0 = Ok (str "abcde") /\
  _generate_shifted_alphabet (str "abcde") (7 + (-8400) * Z.of_nat (length (str "abcde")))
  = _generate_shifted_alphabet (str "abcde") 7.
Proof. apply (X2_shift_inverse_and_period (str "abcde") 7 (-8400)). discriminate. Defined.

(** ** [ShiftedCipher] *)

Lemma ShiftedCipher_Ok alphabet (k : Z) :
  alphabet ≠ [] ->
  let ct := rotate_left (Z.to_nat (k mod Z.of_nat (length alphabet))) alphabet in
  ShiftedCipher.__init__ k (Some alphabet)
  = Ok (mkCipher alphabet ct (mapped ct alphabet <$> alphabet)).
Proof.
  intros Hne ct. unfold ShiftedCipher.__init__. cbn [from_option id].
  rewrite shifted_alphabet_Ok by assumption. cbn [bind].
  apply Cipher_init_Permutation, rotate_left_Permutation.
Qed.

Lemma mapped_rotate_left alphabet n ch i :
  n < length alphabet -> index alphabet ch = Some i ->
  alphabet !! ((n + i) mod length alphabet)
  = Some (mapped alphabet (rotate_left n alphabet) ch).
Proof.
  intros Hn Hi. pose proof (index_lt _ _ _ Hi) as Hlt.
  rewrite <- rotate_left_lookup by assumption.
  apply mapped_elem_of; [assumption|]. by rewrite length_rotate_left.
Qed.

Lemma mapped_rotate_left_opposite alphabet n n' ch :
  NoDup alphabet -> n < length alphabet -> n' < length alphabet ->
  (n + n') mod length alphabet = 0 ->
  mapped (rotate_left n alphabet) alphabet ch
  = mapped alphabet (rotate_left n' alphabet) ch.
Proof.
  intros Hnd Hn Hn' Hsum.
  destruct (index alphabet ch) as [i|] eqn:Hi.
  - pose proof (index_lt _ _ _ Hi) as Hlt.
    pose proof (mapped_rotate_left alphabet n' ch i Hn' Hi) as Himg.
    set (p := (n' + i) mod length alphabet) in *.
    assert (p < length alphabet) as Hp by (apply Nat.mod_upper_bound; lia).
    assert (index (rotate_left n alphabet) ch = Some p) as Hidx.
    { apply index_NoDup.
      - by rewrite rotate_left_Permutation.
      - rewrite rotate_left_lookup by assumption. subst p.
        rewrite Nat.Div0.add_mod_idemp_r.
        replace (n + (n' + i)) with ((n + n') + i) by lia.
        rewrite <- Nat.Div0.add_mod_idemp_l, Hsum. cbn [Nat.add].
        rewrite Nat.mod_small by assumption. by apply index_Some in Hi as [? _]. }
    unfold mapped at 1. rewrite Hidx, Himg. reflexivity.
  - apply index_None in Hi. rewrite (mapped_not_elem_of alphabet _ ch Hi).
    apply mapped_not_elem_of. by rewrite rotate_left_Permutation.
Qed.

Lemma opposite_amounts (k : Z) (len : nat) :
  len ≠ 0 ->
  (Z.to_nat (k mod Z.of_nat len) + Z.to_nat ((- k) mod Z.of_nat len)) mod len = 0.
Proof.
  intros Hlen. rewrite to_nat_mod_add by assumption.
  by rewrite Z.add_opp_diag_r, Z.mod_0_l by lia.
Qed.

Lemma caesar_position (i : nat) (k : Z) (len : nat) :
  len ≠ 0 ->
  (Z.to_nat (k mod Z.of_nat len) + i) mod len
  = Z.to_nat ((Z.of_nat i + k) mod Z.of_nat len).
Proof.
  intros Hlen. apply Nat2Z.inj.
  pose proof (Z.mod_pos_bound k (Z.of_nat len) ltac:(lia)).
  pose proof (Z.mod_pos_bound (Z.of_nat i + k) (Z.of_nat len) ltac:(lia)).
  rewrite Nat2Z.inj_mod, Nat2Z.inj_add, !Z2Nat.id by lia.
  rewrite Zplus_mod_idemp_l. f_equal. lia.
Qed.

(** X3.  [ShiftedCipher] never fails on a non-empty alphabet, and the
    cipher it returns is the Caesar cipher of the alphabet: a character
    whose first position in the alphabet is [i] is encrypted to the
    character at position [(i + shift_amount) mod len]; the output has the
    length of the input. *)
Theorem X3_shifted_cipher_is_caesar alphabet (shift_amount : Z) :
  alphabet ≠ [] ->
  exists c,
    ShiftedCipher.__init__ shift_amount (Some alphabet) = Ok c /\
    plaintext_list c = alphabet /\
    forall s, exists e,
      Cipher.encrypt c s = Ok e /\ length e = length s /\
      forall j ch i,
        s !! j = Some ch -> index alphabet ch = Some i ->
        e !! j
        = alphabet !! Z.to_nat ((Z.of_nat i + shift_amount) mod Z.of_nat (length alphabet)).
Proof.
  intros Hne. assert (length alphabet ≠ 0) as Hlen by (by destruct alphabet).
  pose proof (ShiftedCipher_Ok alphabet shift_amount Hne) as Hc. cbn zeta in Hc.
  eexists. split; [exact Hc|]. split; [reflexivity|]. intros s.
  exists (mapped alphabet
            (rotate_left (Z.to_nat (shift_amount mod Z.of_nat (length alphabet))) alphabet)
          <$> s).
  split; [|split].
  - unfold Cipher.encrypt. cbn [plaintext_list ciphertext_list].
    apply apply_mapping_total. by rewrite length_rotate_left.
  - by rewrite length_fmap.
  - intros j ch i Hj Hi. rewrite list_lookup_fmap, Hj. cbn.
    rewrite <- (mapped_rotate_left alphabet _ ch i (shift_amount_lt _ _ Hlen) Hi).
    f_equal. by apply caesar_position.
Qed.

Lemma X3_shifted_cipher_is_caesar_witness :
  exists c,
    ShiftedCipher.__init__ 3 (Some ascii_uppercase) = Ok c /\
    plaintext_list c = ascii_uppercase /\
    forall s, exists e,
      Cipher.encrypt c s = Ok e /\ length e = length s /\
      forall j ch i,
        s !! j = Some ch -> index ascii_uppercase ch = Some i ->
        e !! j
        = ascii_uppercase !! Z.to_nat ((Z.of_nat i + 3) mod Z.of_nat (length ascii_uppercase)).
Proof. apply (X3_shifted_cipher_is_caesar ascii_uppercase 3). discriminate. Defined.

(** X4.  On a non-empty duplicate-free alphabet, the cipher shifted by
    [- k] is the inverse of the cipher shifted by [k]: decrypting with one
    is encrypting with the other, for every string. *)
Theorem X4_opposite_shift_decrypts alphabet (k : Z) c1 c2 s :
  NoDup alphabet ->
  ShiftedCipher.__init__ k (Some alphabet) = Ok c1 ->
  ShiftedCipher.__init__ (- k) (Some alphabet) = Ok c2 ->
  Cipher.decrypt c1 s = Cipher.encrypt c2 s /\
  Cipher.encrypt c1 s = Cipher.decrypt c2 s.
Proof.
  intros Hnd H1 H2.
  assert (alphabet ≠ []) as Hne.
  { intros ->. discriminate H1. }
  assert (length alphabet ≠ 0) as Hlen by (by destruct alphabet).
  unfold ShiftedCipher.__init__ in H1, H2. cbn [from_option id] in H1, H2.
  rewrite shifted_alphabet_Ok in H1, H2 by assumption. cbn [bind] in H1, H2.
  rewrite (decrypt_total _ _ _ s H1), (encrypt_total _ _ _ s H2).
  rewrite (decrypt_total _ _ _ s H2), (encrypt_total _ _ _ s H1).
  split; f_equal; apply list_fmap_ext; intros _ ch _.
  - apply mapped_rotate_left_opposite;
      [assumption | by apply shift_amount_lt.. | by apply opposite_amounts].
  - symmetry. apply mapped_rotate_left_opposite;
      [assumption | by apply shift_amount_lt.. |].
    rewrite Nat.add_comm. by apply opposite_amounts.
Qed.

Lemma X4_opposite_shift_decrypts_witness :
  Cipher.decrypt (mkCipher (str "abcd") (str "bcda") (str "dabc")) (str "a cab")
  = Cipher.encrypt (mkCipher (str "abcd") (str "dabc") (str "bcda")) (str "a cab") /\
  Cipher.encrypt (mkCipher (str "abcd") (str "bcda") (str "dabc")) (str "a cab")
  = Cipher.decrypt (mkCipher (str "abcd") (str "dabc") (str "bcda")) (str "a cab").
Proof.
  apply (X4_opposite_shift_decrypts (str "abcd") 1).
  - by_evaluation.
  - reflexivity.
  - reflexivity.
Defined.

(** X5.  On a duplicate-free alphabet, a shift by an amount that is not a
    multiple of the length maps no character of the alphabet to itself;
    a shift by a multiple of the length encrypts every string to itself. *)
Theorem X5_shift_fixes_nothing_or_everything alphabet (k : Z) c :
  NoDup alphabet ->
  ShiftedCipher.__init__ k (Some alphabet) = Ok c ->
  ((k mod Z.of_nat (length alphabet))%Z ≠ 0%Z ->
   forall ch, ch ∈ alphabet -> Cipher.encrypt c [ch] ≠ Ok [ch]) /\
  ((k mod Z.of_nat (length alphabet))%Z = 0%Z ->
   forall s, Cipher.encrypt c s = Ok s).
Proof.
  intros Hnd Hc.
  assert (alphabet ≠ []) as Hne.
  { intros ->. discriminate Hc. }
  assert (length alphabet ≠ 0) as Hlen by (by destruct alphabet).
  unfold ShiftedCipher.__init__ in Hc. cbn [from_option id] in Hc.
  rewrite shifted_alphabet_Ok in Hc by assumption. cbn [bind] in Hc.
  pose proof (shift_amount_lt k _ Hlen) as Hn.
  split.
  - intros Hk ch Hch. rewrite (encrypt_total _ _ _ _ Hc). cbn.
    intros [= Hfix].
    destruct (index_elem_of _ _ Hch) as [i Hi].
    pose proof (index_lt _ _ _ Hi) as Hlt.
    pose proof (mapped_rotate_left alphabet _ ch i Hn Hi) as Himg.
    rewrite Hfix in Himg. apply index_Some in Hi as [Hi _].
    pose proof (NoDup_lookup _ _ _ _ Hnd Himg Hi) as Hpos.
    set (n := Z.to_nat (k mod Z.of_nat (length alphabet))) in *.
    assert (n ≠ 0) as Hn0.
    { pose proof (Z.mod_pos_bound k (Z.of_nat (length alphabet)) ltac:(lia)).
      subst n. lia. }
    destruct (decide (n + i < length alphabet)) as [Hsmall|Hlarge].
    + rewrite Nat.mod_small in Hpos by assumption. lia.
    + replace (n + i) with ((n + i - length alphabet) + 1 * length alphabet) in Hpos by lia.
      rewrite Nat.Div0.mod_add, Nat.mod_small in Hpos by lia. lia.
  - intros Hk s. rewrite (encrypt_total _ _ _ _ Hc). f_equal.
    rewrite Hk. change (Z.to_nat 0) with 0. rewrite rotate_left_0.
    rewrite <- (list_fmap_id s) at 2. apply list_fmap_ext. intros _ ch _. cbn.
    unfold mapped. destruct (index alphabet ch) as [i|] eqn:Hi; [|reflexivity].
    apply index_Some in Hi as [-> _]. reflexivity.
Qed.

Lemma X5_shift_fixes_nothing_or_everything_witness :
  (forall ch, ch ∈ str "abcd" ->
     Cipher.encrypt (mkCipher (str "abcd") (str "bcda") (str "dabc")) [ch] ≠ Ok [ch]) /\
  (forall s, Cipher.encrypt (mkCipher (str "abcd") (str "abcd") (str "abcd")) s = Ok s).
Proof.
  split.
  - apply (X5_shift_fixes_nothing_or_everything (str "abcd") 5);
      [by_evaluation | reflexivity | discriminate].
  - apply (X5_shift_fixes_nothing_or_everything (str "abcd") 8);
      [by_evaluation | reflexivity | reflexivity].
Defined.

(** ** [KeyedCipher] *)

Lemma first_absent (alphabet key : list ascii) :
  ¬ (forall c, c ∈ key -> c ∈ alphabet) ->
  exists key1 c key2,
    key = key1 ++ c :: key2 /\ (forall x, x ∈ key1 -> x ∈ alphabet) /\ c ∉ alphabet.
Proof.
  induction key as [|k key IH]; intros Hnot.
  - exfalso. apply Hnot. intros c Hc. by apply elem_of_nil in Hc.
  - destruct (decide (k ∈ alphabet)) as [Hk|Hk].
    + destruct IH as (key1 & c & key2 & -> & Hkey1 & Hc).
      { intros Hall. apply Hnot. intros c [->|Hc]%elem_of_cons; [assumption|].
        by apply Hall. }
      exists (k :: key1), c, key2. split; [reflexivity|]. split; [|assumption].
      intros x [->|Hx]%elem_of_cons; [assumption | by apply Hkey1].
    + exists [], k, key. split; [reflexivity|]. split; [|assumption].
      intros x Hx. by apply elem_of_nil in Hx.
Qed.

Lemma keyword_based_fails alphabet key :
  ¬ (forall c, c ∈ key -> c ∈ alphabet) ->
  exists c,
    c ∈ key /\ (c ∉ alphabet) /\
    _generate_keyword_based_ciphertext_alphabet alphabet key
    = Raise (ValueError (keyword_not_in_alphabet ++ [c])).
Proof.
  intros (key1 & c & key2 & -> & Hkey1 & Hc)%first_absent.
  exists c. split; [|split; [assumption|]].
  - rewrite elem_of_app, elem_of_cons. tauto.
  - rewrite keyword_based_refines. by apply reorder_by_key_from_absent.
Qed.

Lemma keyword_based_Ok_iff alphabet key :
  (exists r, _generate_keyword_based_ciphertext_alphabet alphabet key = Ok r)
  <-> forall c, c ∈ key -> c ∈ alphabet.
Proof.
  split; [|apply keyword_based_total].
  intros [r Hr].
  destruct (decide (Forall (fun c => c ∈ alphabet) key)) as [Hall|Hnot].
  - by apply Forall_forall.
  - rewrite Forall_forall in Hnot.
    apply keyword_based_fails in Hnot as (c & _ & _ & Hfail). congruence.
Qed.

Lemma KeyedCipher_of_ciphertext key alphabet ct :
  key ≠ [] ->
  _generate_case_handled_ciphertext_alphabet alphabet key = Ok ct ->
  KeyedCipher.__init__ key (Some alphabet)
  = Ok (mkCipher (chars alphabet) ct (mapped ct (chars alphabet) <$> chars alphabet)).
Proof.
  intros Hkey Hct. unfold KeyedCipher.__init__. cbn [from_option id].
  rewrite decide_False by (by destruct key). rewrite Hct. cbn [bind].
  apply Cipher_init_Permutation. by eapply case_handled_Permutation.
Qed.

(** X6.  On an alphabet other than [string.ascii_letters], be it a [str]
    or a list, [KeyedCipher] returns a cipher exactly when the key is
    non-empty and each of its characters occurs in the alphabet; the cipher
    then keeps the alphabet as its plaintext alphabet.  In every other case
    it raises [ValueError]: for the empty key with the message about a
    non-null string, otherwise with a message that ends in a key character
    that the alphabet lacks. *)
Theorem X6_keyed_cipher_outcomes key alphabet :
  alphabet ≠ PyStr ascii_letters ->
  (key = [] ->
   KeyedCipher.__init__ key (Some alphabet) = Raise (ValueError keyword_non_null)) /\
  (key ≠ [] -> (forall ch, ch ∈ key -> ch ∈ chars alphabet) ->
   exists c,
     KeyedCipher.__init__ key (Some alphabet) = Ok c /\
     plaintext_list c = chars alphabet /\ ciphertext_list c ≡ₚ chars alphabet) /\
  (key ≠ [] -> ¬ (forall ch, ch ∈ key -> ch ∈ chars alphabet) ->
   exists ch,
     ch ∈ key /\ (ch ∉ chars alphabet) /\
     KeyedCipher.__init__ key (Some alphabet)
     = Raise (ValueError (keyword_not_in_alphabet ++ [ch]))).
Proof.
  intros Hletters. split; [|split].
  - intros ->. reflexivity.
  - intros Hkey Hall.
    destruct (keyword_based_total (chars alphabet) key Hall) as [r Hr].
    assert (_generate_case_handled_ciphertext_alphabet alphabet key = Ok r) as Hct.
    { unfold _generate_case_handled_ciphertext_alphabet. by rewrite decide_False. }
    rewrite (KeyedCipher_of_ciphertext key alphabet r Hkey Hct).
    eexists. split; [reflexivity|]. split; [reflexivity|].
    by eapply keyword_based_Permutation.
  - intros Hkey Hnot.
    destruct (keyword_based_fails (chars alphabet) key Hnot)
      as (ch & Hin & Hout & Hfail).
    exists ch. split; [assumption|]. split; [assumption|].
    unfold KeyedCipher.__init__. cbn [from_option id].
    rewrite decide_False by (by destruct key).
    unfold _generate_case_handled_ciphertext_alphabet.
    rewrite decide_False by assumption. by rewrite Hfail.
Qed.

Lemma X6_keyed_cipher_outcomes_witness :
  KeyedCipher.__init__ [] (Some (PyStr (str "0123456789")))
  = Raise (ValueError keyword_non_null) /\
  (exists c,
     KeyedCipher.__init__ (str "5158414") (Some (PyStr (str "0123456789"))) = Ok c /\
     plaintext_list c = str "0123456789" /\ ciphertext_list c ≡ₚ str "0123456789") /\
  (exists ch,
     ch ∈ str "51x8" /\ (ch ∉ str "0123456789") /\
     KeyedCipher.__init__ (str "51x8") (Some (PyStr (str "0123456789")))
     = Raise (ValueError (keyword_not_in_alphabet ++ [ch]))).
Proof.
  split; [|split].
  - apply (X6_keyed_cipher_outcomes [] (PyStr (str "0123456789")));
      [discriminate | reflexivity].
  - apply (X6_keyed_cipher_outcomes (str "5158414") (PyStr (str "0123456789")));
      [discriminate | discriminate | by_evaluation_on_elements].
  - apply (X6_keyed_cipher_outcomes (str "51x8") (PyStr (str "0123456789")));
      [discriminate | discriminate |].
    intros Hall. specialize (Hall "x"%char ltac:(by_evaluation)).
    revert Hall. by_evaluation.
Defined.

(** ** Case handling on [string.ascii_letters] *)

(** Case analysis on the eight bits of a character. *)
Ltac ascii_cases c := destruct c as [[] [] [] [] [] [] [] []].

Lemma lower_fmap s : lower s = lower_char <$> s.
Proof. reflexivity. Qed.

Lemma char_class c :
  is_lower c = true /\ is_upper c = false \/
  is_upper c = true /\ is_lower c = false \/
  is_lower c = false /\ is_upper c = false.
Proof. ascii_cases c; vm_compute; tauto. Qed.

Lemma is_lower_lowercase c : is_lower c = true <-> c ∈ ascii_lowercase.
Proof.
  rewrite <- (bool_decide_spec (c ∈ ascii_lowercase)), Is_true_true.
  ascii_cases c; vm_compute; tauto.
Qed.

Lemma is_upper_uppercase c : is_upper c = true <-> c ∈ ascii_uppercase.
Proof.
  rewrite <- (bool_decide_spec (c ∈ ascii_uppercase)), Is_true_true.
  ascii_cases c; vm_compute; tauto.
Qed.

(** On the letters of ASCII the case maps of Python are the exchange of
    case of ASCII. *)
Lemma lower_char_letter c :
  is_lower c || is_upper c = true -> lower_char c = ascii_lower_char c.
Proof. ascii_cases c; vm_compute; intros; (reflexivity || discriminate). Qed.

Lemma upper_char_letter c :
  is_lower c || is_upper c = true -> upper_char c = [ascii_upper_char c].
Proof. ascii_cases c; vm_compute; intros; (reflexivity || discriminate). Qed.

(** A character that is no letter of ASCII has no letter of ASCII as its
    lower case, nor in its upper case when that is one character. *)
Lemma lower_char_other c :
  is_lower c = false -> is_upper c = false ->
  is_lower (lower_char c) = false /\ is_upper (lower_char c) = false.
Proof. ascii_cases c; vm_compute; intros; (tauto || discriminate). Qed.

Lemma upper_char_other c :
  is_lower c = false -> is_upper c = false -> upper_is_a_character c = true ->
  let u := default c (head (upper_char c)) in
  upper_char c = [u] /\ is_lower u = false /\ is_upper u = false.
Proof.
  ascii_cases c; vm_compute; intros; first [discriminate | repeat split; reflexivity].
Qed.

Lemma lower_char_lowercase c :
  lower_char c ∈ ascii_lowercase <-> is_lower c || is_upper c = true.
Proof.
  rewrite <- (bool_decide_spec (lower_char c ∈ ascii_lowercase)), Is_true_true.
  by ascii_cases c; vm_compute.
Qed.

Lemma ascii_upper_char_uppercase c :
  ascii_upper_char c ∈ ascii_uppercase <-> is_lower c || is_upper c = true.
Proof.
  rewrite <- (bool_decide_spec (ascii_upper_char c ∈ ascii_uppercase)), Is_true_true.
  by ascii_cases c; vm_compute.
Qed.

Lemma all_letters_lower (key : list ascii) :
  (forall ch, ch ∈ lower key -> ch ∈ ascii_lowercase)
  <-> forall ch, ch ∈ key -> is_lower ch || is_upper ch = true.
Proof.
  rewrite lower_fmap. split.
  - intros H ch Hch. apply lower_char_lowercase, H, list_elem_of_fmap. eauto.
  - intros H ch (ch0 & -> & Hch0)%list_elem_of_fmap. by apply lower_char_lowercase, H.
Qed.

Lemma lower_letters (key : list ascii) :
  (forall ch, ch ∈ key -> is_lower ch || is_upper ch = true) ->
  lower key = ascii_lower_char <$> key.
Proof.
  intros Hall. rewrite lower_fmap. apply list_fmap_ext.
  intros i ch Hch. apply lower_char_letter, Hall. by eapply list_elem_of_lookup_2.
Qed.

Lemma upper_letters (key : list ascii) :
  (forall ch, ch ∈ key -> is_lower ch || is_upper ch = true) ->
  upper key = ascii_upper_char <$> key.
Proof.
  unfold upper. induction key as [|c key IH]; intros Hall; [reflexivity|].
  rewrite bind_cons, fmap_cons.
  rewrite (upper_char_letter c) by (apply Hall; left).
  cbn [app]. f_equal. apply IH. intros ch Hch. apply Hall. by right.
Qed.

Lemma all_letters_upper (key : list ascii) :
  (forall ch, ch ∈ key -> is_lower ch || is_upper ch = true) ->
  forall ch, ch ∈ upper key -> ch ∈ ascii_uppercase.
Proof.
  intros Hall. rewrite (upper_letters key Hall).
  intros ch (ch0 & -> & Hch0)%list_elem_of_fmap.
  by apply ascii_upper_char_uppercase, Hall.
Qed.

Lemma case_handled_letters key :
  _generate_case_handled_ciphertext_alphabet (PyStr ascii_letters) key
  = bind (_generate_keyword_based_ciphertext_alphabet ascii_lowercase (lower key))
      (fun lower_half =>
         bind (_generate_keyword_based_ciphertext_alphabet ascii_uppercase (upper key))
           (fun upper_half => Ok (lower_half ++ upper_half))).
Proof. unfold _generate_case_handled_ciphertext_alphabet. by rewrite decide_True. Qed.

(** X7.  On [string.ascii_letters], [KeyedCipher] returns a cipher exactly
    when the key is non-empty and consists of ASCII letters, of either
    case; any other key (empty, or with a digit, a space, a punctuation
    mark) makes it raise [ValueError]. *)
Theorem X7_keyed_cipher_on_letters key :
  (key ≠ [] -> (forall ch, ch ∈ key -> is_lower ch || is_upper ch = true) ->
   exists c,
     KeyedCipher.__init__ key (Some (PyStr ascii_letters)) = Ok c /\
     plaintext_list c = ascii_letters /\ ciphertext_list c ≡ₚ ascii_letters) /\
  (¬ (key ≠ [] /\ forall ch, ch ∈ key -> is_lower ch || is_upper ch = true) ->
   fails_with_InvalidArgument (KeyedCipher.__init__ key (Some (PyStr ascii_letters)))).
Proof.
  split.
  - intros Hkey Hall.
    destruct (keyword_based_total ascii_lowercase (lower key)) as [l Hl];
      [by apply all_letters_lower|].
    destruct (keyword_based_total ascii_uppercase (upper key)) as [u Hu];
      [by apply all_letters_upper|].
    assert (_generate_case_handled_ciphertext_alphabet (PyStr ascii_letters) key
            = Ok (l ++ u))
      as Hct by (by rewrite case_handled_letters, Hl, Hu).
    rewrite (KeyedCipher_of_ciphertext key (PyStr ascii_letters) _ Hkey Hct).
    eexists. split; [reflexivity|]. split; [reflexivity|].
    by apply case_handled_Permutation in Hct.
  - intros Hnot. unfold KeyedCipher.__init__. cbn [from_option id].
    case_decide as Hlen; [by eexists|].
    assert (key ≠ []) as Hkey by (intros ->; by apply Hlen).
    rewrite case_handled_letters.
    destruct (keyword_based_fails ascii_lowercase (lower key)) as (ch & _ & _ & ->).
    + rewrite all_letters_lower. tauto.
    + by eexists.
Qed.

Lemma X7_keyed_cipher_on_letters_witness :
  (exists c,
     KeyedCipher.__init__ (str "Key") (Some (PyStr ascii_letters)) = Ok c /\
     plaintext_list c = ascii_letters /\ ciphertext_list c ≡ₚ ascii_letters) /\
  fails_with_InvalidArgument
    (KeyedCipher.__init__ (str "my key") (Some (PyStr ascii_letters))).
Proof.
  split.
  - apply (X7_keyed_cipher_on_letters (str "Key"));
      [discriminate | by_evaluation_on_elements].
  - apply (X7_keyed_cipher_on_letters (str "my key")).
    intros [_ Hall]. specialize (Hall " "%char ltac:(by_evaluation)).
    discriminate Hall.
Defined.

Lemma ascii_lower_upper_char c :
  is_upper c = false -> ascii_lower_char (ascii_upper_char c) = c.
Proof. ascii_cases c; vm_compute; intros; (reflexivity || discriminate). Qed.

Lemma ascii_upper_lower_char c :
  ascii_upper_char (ascii_lower_char c) = ascii_upper_char c.
Proof. by ascii_cases c; vm_compute. Qed.

Lemma is_upper_ascii_lower_char c : is_upper (ascii_lower_char c) = false.
Proof. by ascii_cases c; vm_compute. Qed.

Lemma is_upper_lower_char c :
  is_upper (lower_char c) = false /\ is_upper_latin1 (lower_char c) = false.
Proof. by ascii_cases c; vm_compute. Qed.

Lemma ascii_upper_char_idem c :
  ascii_upper_char (ascii_upper_char c) = ascii_upper_char c.
Proof. by ascii_cases c; vm_compute. Qed.

Lemma ascii_upper_char_of_upper c :
  is_upper c = true ->
  ascii_upper_char c = c /\ ascii_upper_char (ascii_lower_char c) = c /\
  is_lower (ascii_lower_char c) = true.
Proof. ascii_cases c; vm_compute; intros; (tauto || discriminate). Qed.

Lemma ascii_lower_char_of_lower c :
  is_lower c = true ->
  ascii_lower_char c = c /\ is_upper (ascii_upper_char c) = true /\
  is_lower (ascii_upper_char c) = false.
Proof. ascii_cases c; vm_compute; intros; (tauto || discriminate). Qed.

Lemma index_app l1 l2 x :
  index (l1 ++ l2) x
  = match index l1 x with
    | Some i => Some i
    | None => (fun i => length l1 + i) <$> index l2 x
    end.
Proof.
  induction l1 as [|y l1 IH]; simpl.
  - by destruct (index l2 x).
  - case_decide; [reflexivity|]. rewrite IH.
    destruct (index l1 x); [reflexivity|]. by destruct (index l2 x).
Qed.

Section fmap_keyword.
Variable f : ascii -> ascii.
Variable P : ascii -> Prop.
Hypothesis f_inj : forall x y, P x -> P y -> f x = f y -> x = y.

Lemma index_fmap l c : Forall P l -> P c -> index (f <$> l) (f c) = index l c.
Proof.
  intros Hl Hc. induction Hl as [|y l Hy Hl IH]; [reflexivity|].
  rewrite fmap_cons. cbn [index]. rewrite IH.
  destruct (decide (y = c)) as [->|Hne].
  - by rewrite !decide_True.
  - rewrite !decide_False
      by (assumption || (intros Heq; by apply Hne, f_inj)).
    reflexivity.
Qed.

Lemma remove_first_fmap l c :
  Forall P l -> P c -> f <$> remove_first c l = remove_first (f c) (f <$> l).
Proof.
  intros Hl Hc. induction Hl as [|y l Hy Hl IH]; [reflexivity|].
  rewrite fmap_cons. cbn [remove_first].
  destruct (decide (y = c)) as [->|Hne].
  - by rewrite !decide_True.
  - rewrite !decide_False by (assumption || (intros Heq; by apply Hne, f_inj)).
    by rewrite fmap_cons, IH.
Qed.

Lemma Forall_remove_first l c : Forall P l -> Forall P (remove_first c l).
Proof.
  induction 1 as [|y l Hy Hl IH]; simpl; [constructor|].
  case_decide; [assumption | by constructor].
Qed.

Lemma keyword_loop_fmap key work out work' out' :
  Forall P work -> Forall P key ->
  for_in key keyword_loop_body (work, out) = Ok (work', out') ->
  for_in (f <$> key) keyword_loop_body (f <$> work, f <$> out)
  = Ok (f <$> work', f <$> out').
Proof.
  intros Hwork Hkey. revert work out Hwork.
  induction Hkey as [|c key Hc Hkey IH]; intros work out Hwork;
    rewrite ?fmap_cons; cbn [for_in].
  - by intros [= -> ->].
  - destruct (decide (c ∈ work)) as [Hw|Hw].
    + rewrite keyword_body_present by assumption.
      rewrite keyword_body_present by (by apply list_elem_of_fmap_2).
      cbn [bind]. intros Hrest.
      rewrite <- remove_first_fmap by assumption.
      replace ((f <$> out) ++ [f c]) with (f <$> (out ++ [c]))
        by (by rewrite fmap_app).
      apply IH; [by apply Forall_remove_first | assumption].
    + destruct (decide (c ∈ out)) as [Ho|Ho].
      * rewrite keyword_body_consumed by assumption.
        rewrite keyword_body_consumed.
        -- cbn [bind]. by apply IH.
        -- apply index_None. rewrite index_fmap by assumption. by apply index_None.
        -- by apply list_elem_of_fmap_2.
      * rewrite keyword_body_absent by assumption. discriminate.
Qed.

Lemma keyword_based_fmap alphabet key r :
  Forall P alphabet -> Forall P key ->
  _generate_keyword_based_ciphertext_alphabet alphabet key = Ok r ->
  _generate_keyword_based_ciphertext_alphabet (f <$> alphabet) (f <$> key)
  = Ok (f <$> r).
Proof.
  intros Halphabet Hkey.
  unfold _generate_keyword_based_ciphertext_alphabet, _list_to_string.
  intros ([work' out'] & Hloop & [= <-])%bind_Ok.
  change (@nil ascii) with (f <$> @nil ascii).
  rewrite (keyword_loop_fmap key alphabet [] work' out') by assumption.
  cbn [bind fst snd]. by rewrite fmap_app.
Qed.
End fmap_keyword.

(** When the lowercase half is reordered, the key consists of letters of
    ASCII, and the reordered uppercase half is the reordered lowercase
    half in upper case. *)
Lemma lower_half_letters key l :
  _generate_keyword_based_ciphertext_alphabet ascii_lowercase (lower key) = Ok l ->
  forall ch, ch ∈ key -> is_lower ch || is_upper ch = true.
Proof. intros Hl. apply all_letters_lower, keyword_based_Ok_iff. eauto. Qed.

Lemma upper_half_of_lower_half key l :
  _generate_keyword_based_ciphertext_alphabet ascii_lowercase (lower key) = Ok l ->
  _generate_keyword_based_ciphertext_alphabet ascii_uppercase (upper key)
  = Ok (ascii_upper_char <$> l).
Proof.
  intros Hl. pose proof (lower_half_letters key l Hl) as Hletters.
  rewrite (upper_letters key Hletters).
  rewrite (lower_letters key Hletters) in Hl.
  assert (ascii_upper_char <$> key = ascii_upper_char <$> (ascii_lower_char <$> key)) as ->.
  { rewrite <- list_fmap_compose.
    apply list_fmap_ext. intros _ c _. symmetry. apply ascii_upper_lower_char. }
  assert (ascii_uppercase = ascii_upper_char <$> ascii_lowercase) as -> by reflexivity.
  apply (keyword_based_fmap ascii_upper_char (fun c => is_upper c = false)).
  - intros x y Hx Hy Heq.
    by rewrite <- (ascii_lower_upper_char x), <- (ascii_lower_upper_char y), Heq.
  - by_evaluation.
  - apply Forall_fmap, Forall_forall.
    intros c _. apply is_upper_ascii_lower_char.
  - assumption.
Qed.

Lemma letters_mapped_lower l ch :
  l ≡ₚ ascii_lowercase -> is_lower ch = true ->
  let E := mapped ascii_letters (l ++ (ascii_upper_char <$> l)) in
  E ch ∈ l /\ E (ascii_upper_char ch) = ascii_upper_char (E ch).
Proof.
  intros Hl Hch E.
  assert (length l = length ascii_lowercase) as Hlen by (by apply Permutation_length).
  destruct (index_elem_of ascii_lowercase ch) as [i Hi];
    [by apply is_lower_lowercase|].
  pose proof (index_lt _ _ _ Hi) as Hlt.
  assert (l !! i = Some (E ch)) as Himg.
  { rewrite <- (lookup_app_l l (ascii_upper_char <$> l)) by lia.
    apply mapped_elem_of; [|rewrite length_app; lia].
    unfold ascii_letters. by rewrite index_app, Hi. }
  split; [by eapply list_elem_of_lookup_2|].
  assert (index ascii_letters (ascii_upper_char ch) = Some (length ascii_lowercase + i))
    as Hup.
  { unfold ascii_letters. rewrite index_app.
    assert (index ascii_lowercase (ascii_upper_char ch) = None) as ->.
    { apply index_None. rewrite <- is_lower_lowercase.
      destruct (ascii_lower_char_of_lower ch Hch) as (_ & _ & ->). discriminate. }
    assert (ascii_uppercase = ascii_upper_char <$> ascii_lowercase) as -> by reflexivity.
    rewrite (index_fmap ascii_upper_char (fun c => is_upper c = false)), Hi;
      [reflexivity|..].
    - intros x y Hx Hy Heq.
      by rewrite <- (ascii_lower_upper_char x), <- (ascii_lower_upper_char y), Heq.
    - by_evaluation.
    - destruct (char_class ch) as [[_ ?]|[[_ ?]|[? _]]]; congruence. }
  pose proof (mapped_elem_of ascii_letters (l ++ (ascii_upper_char <$> l))
                (ascii_upper_char ch) _ Hup) as Himg'.
  rewrite lookup_app_r, Hlen in Himg' by lia.
  replace (length ascii_lowercase + i - length ascii_lowercase) with i in Himg' by lia.
  rewrite list_lookup_fmap, Himg in Himg'.
  specialize (Himg' ltac:(rewrite length_app, length_fmap; lia)).
  by injection Himg'.
Qed.

Lemma letters_mapped_other l ch :
  l ≡ₚ ascii_lowercase -> is_lower ch = false -> is_upper ch = false ->
  mapped ascii_letters (l ++ (ascii_upper_char <$> l)) ch = ch.
Proof.
  intros _ Hlow Hup. apply mapped_not_elem_of.
  unfold ascii_letters. rewrite elem_of_app.
  intros [Hin|Hin].
  - apply is_lower_lowercase in Hin. congruence.
  - apply is_upper_uppercase in Hin. congruence.
Qed.

(** The cipher on the letters commutes with the exchange of case of ASCII
    and keeps each character in its class: lowercase, uppercase, or
    neither. *)
Lemma letters_mapped_case l ch :
  l ≡ₚ ascii_lowercase ->
  let E := mapped ascii_letters (l ++ (ascii_upper_char <$> l)) in
  E (ascii_upper_char ch) = ascii_upper_char (E ch) /\
  E (ascii_lower_char ch) = ascii_lower_char (E ch) /\
  is_lower (E ch) = is_lower ch /\ is_upper (E ch) = is_upper ch.
Proof.
  intros Hl E.
  assert (forall x, x ∈ l -> is_lower x = true /\ is_upper x = false) as Hlow.
  { intros x Hx. rewrite Hl in Hx. apply is_lower_lowercase in Hx.
    destruct (char_class x) as [[_ ?]|[[_ ?]|[? _]]]; split; congruence. }
  destruct (char_class ch) as [[Hlo Hup]|[[Hup Hlo]|[Hlo Hup]]].
  - destruct (letters_mapped_lower l ch Hl Hlo) as [Hin Hcomm]. fold E in Hin, Hcomm.
    destruct (Hlow _ Hin) as [HElo HEup].
    destruct (ascii_lower_char_of_lower ch Hlo) as (-> & _ & _).
    destruct (ascii_lower_char_of_lower _ HElo) as (-> & _ & _).
    repeat split; congruence.
  - destruct (ascii_upper_char_of_upper ch Hup) as (Hfix & Hback & Hlo0).
    destruct (letters_mapped_lower l (ascii_lower_char ch) Hl Hlo0) as [Hin Hcomm].
    fold E in Hin, Hcomm. rewrite Hback in Hcomm.
    destruct (Hlow _ Hin) as [HElo HEup].
    destruct (ascii_lower_char_of_lower _ HElo) as (_ & Hup' & Hlo').
    rewrite Hfix, Hcomm, ascii_upper_char_idem, (ascii_lower_upper_char _ HEup).
    repeat split; congruence.
  - pose proof (letters_mapped_other l ch Hl Hlo Hup) as Hfix. fold E in Hfix.
    assert (ascii_upper_char ch = ch) as ->
        by (unfold ascii_upper_char; by rewrite Hlo).
    assert (ascii_lower_char ch = ch) as ->
        by (unfold ascii_lower_char; by rewrite Hup).
    rewrite Hfix.
    assert (ascii_upper_char ch = ch) as ->
        by (unfold ascii_upper_char; by rewrite Hlo).
    assert (ascii_lower_char ch = ch) as ->
        by (unfold ascii_lower_char; by rewrite Hup).
    repeat split; congruence.
Qed.

(** The same for the case maps of Python: [lower_char] on every character,
    [upper_char] on every character whose upper case is one character. *)
Lemma letters_mapped_lower_char l ch :
  l ≡ₚ ascii_lowercase ->
  let E := mapped ascii_letters (l ++ (ascii_upper_char <$> l)) in
  E (lower_char ch) = lower_char (E ch).
Proof.
  intros Hl E.
  destruct (letters_mapped_case l ch Hl) as (_ & Hcomm & HElo & HEup).
  fold E in Hcomm, HElo, HEup.
  destruct (is_lower ch || is_upper ch) eqn:Hletter.
  - rewrite (lower_char_letter ch Hletter), (lower_char_letter (E ch)); [assumption|].
    by rewrite HElo, HEup.
  - apply orb_false_iff in Hletter as [Hlo Hup].
    unfold E. rewrite (letters_mapped_other l ch Hl Hlo Hup).
    destruct (lower_char_other ch Hlo Hup) as [Hlo' Hup'].
    by apply letters_mapped_other.
Qed.

Lemma letters_mapped_upper_char l ch :
  l ≡ₚ ascii_lowercase -> upper_is_a_character ch = true ->
  let E := mapped ascii_letters (l ++ (ascii_upper_char <$> l)) in
  E <$> upper_char ch = upper_char (E ch).
Proof.
  intros Hl Hone E.
  destruct (letters_mapped_case l ch Hl) as (Hcomm & _ & HElo & HEup).
  fold E in Hcomm, HElo, HEup.
  destruct (is_lower ch || is_upper ch) eqn:Hletter.
  - rewrite (upper_char_letter ch Hletter), (upper_char_letter (E ch))
      by (by rewrite HElo, HEup).
    cbn [fmap list_fmap]. by rewrite Hcomm.
  - apply orb_false_iff in Hletter as [Hlo Hup].
    unfold E. rewrite (letters_mapped_other l ch Hl Hlo Hup).
    destruct (upper_char_other ch Hlo Hup Hone) as (Hu & Hlo' & Hup').
    rewrite Hu. cbn [fmap list_fmap]. by rewrite letters_mapped_other.
Qed.

(** X8.  A cipher that [KeyedCipher] builds on [string.ascii_letters]
    treats the two cases alike.  Encrypting the lower-cased text gives the
    lower-cased ciphertext.  Encrypting the upper-cased text gives the
    upper-cased ciphertext when the text has none of the code points 223
    (whose upper case is the two letters [SS], which the cipher need not
    leave in place), 181 and 255 (whose upper case is not among the 256
    characters).  Every character of the ciphertext is a lowercase letter
    of ASCII, an uppercase letter of ASCII or neither exactly as the
    character it encrypts. *)
Theorem X8_letters_cipher_respects_case key c s :
  KeyedCipher.__init__ key (Some (PyStr ascii_letters)) = Ok c ->
  exists e,
    Cipher.encrypt c s = Ok e /\
    (Forall (fun ch => upper_is_a_character ch = true) s ->
     Cipher.encrypt c (upper s) = Ok (upper e)) /\
    Cipher.encrypt c (lower s) = Ok (lower e) /\
    Forall2 (fun ch x => is_lower x = is_lower ch /\ is_upper x = is_upper ch) s e.
Proof.
  intros Hc. unfold KeyedCipher.__init__ in Hc. cbn [from_option id] in Hc.
  case_decide as Hkey; [discriminate|].
  apply bind_Ok in Hc as (ct & Hct & Hc).
  rewrite case_handled_letters in Hct.
  apply bind_Ok in Hct as (l & Hl & (u & Hu & [= <-])%bind_Ok).
  rewrite (upper_half_of_lower_half key l Hl) in Hu. injection Hu as <-.
  pose proof (keyword_based_Permutation _ _ _ Hl) as Hlperm.
  set (E := mapped ascii_letters (l ++ (ascii_upper_char <$> l))).
  assert (forall t, Cipher.encrypt c t = Ok (E <$> t)) as Henc.
  { intros t. by apply (encrypt_total _ _ _ t Hc). }
  exists (E <$> s). rewrite !Henc. split; [reflexivity|].
  split; [|split].
  - intros Hone. f_equal. unfold upper.
    induction Hone as [|ch s Hch Hone IH]; [reflexivity|].
    rewrite fmap_cons, !bind_cons, fmap_app, IH. f_equal.
    by apply (letters_mapped_upper_char l ch Hlperm).
  - f_equal. rewrite (lower_fmap s), (lower_fmap (E <$> s)), <- !list_fmap_compose.
    apply list_fmap_ext. intros _ ch _.
    apply (letters_mapped_lower_char l ch Hlperm).
  - apply Forall2_fmap_r, Forall_Forall2_diag, Forall_forall. intros ch _.
    apply (letters_mapped_case l ch Hlperm).
Qed.

Lemma X8_letters_cipher_respects_case_witness :
  exists c,
    KeyedCipher.__init__ (str "Key") (Some (PyStr ascii_letters)) = Ok c /\
    exists e,
      Cipher.encrypt c (str "Hi, you!") = Ok e /\
      Cipher.encrypt c (upper (str "Hi, you!")) = Ok (upper e) /\
      Cipher.encrypt c (lower (str "Hi, you!")) = Ok (lower e) /\
      Forall2 (fun ch x => is_lower x = is_lower ch /\ is_upper x = is_upper ch)
        (str "Hi, you!") e.
Proof.
  eexists. split; [reflexivity|].
  destruct (X8_letters_cipher_respects_case (str "Key") _ (str "Hi, you!") eq_refl)
    as (e & He & Hupper & Hlower & Hclass).
  exists e. split; [exact He|]. split; [|split; [exact Hlower | exact Hclass]].
  apply Hupper. by_evaluation.
Defined.

(** The sharp s shows why X8 sets code point 223 apart: under the cipher of
    the key ["Key"] its upper case [SS] encrypts to [RR], while the sharp s
    encrypts to itself, whose upper case is [SS]. *)
Example upper_case_of_sharp_s :
  exists c,
    KeyedCipher.__init__ (str "Key") (Some (PyStr ascii_letters)) = Ok c /\
    Cipher.encrypt c (upper [ascii_of_nat 223]) = Ok (str "RR") /\
    exists e,
      Cipher.encrypt c [ascii_of_nat 223] = Ok e /\ upper e = str "SS".
Proof.
  eexists. split; [reflexivity|]. split; [reflexivity|].
  eexists. split; reflexivity.
Qed.

(** ** [get_combined_cipher] *)

Lemma rotate_left_ne alphabet n :
  NoDup alphabet -> n < length alphabet -> n ≠ 0 -> rotate_left n alphabet ≠ alphabet.
Proof.
  intros Hnd Hn Hn0 Heq.
  destruct (lookup_lt_is_Some_2 alphabet 0 ltac:(lia)) as [x Hx].
  pose proof (rotate_left_lookup n alphabet 0 Hn ltac:(lia)) as Hrot.
  rewrite Heq, Hx, Nat.add_0_r, Nat.mod_small in Hrot by assumption.
  apply Hn0. symmetry in Hrot. by eapply NoDup_lookup.
Qed.

Lemma chars_with_chars alphabet characters :
  chars (with_chars alphabet characters) = characters.
Proof. by destruct alphabet. Qed.

Lemma case_handled_empty_key alphabet :
  _generate_case_handled_ciphertext_alphabet alphabet [] = Ok (chars alphabet).
Proof.
  unfold _generate_case_handled_ciphertext_alphabet.
  case_decide as Hletters; [by subst alphabet|].
  unfold _generate_keyword_based_ciphertext_alphabet. reflexivity.
Qed.

(** X9.  With [shift_first=True] the combined builder shifts first and
    keys second: on a non-empty base alphabet and a non-empty key it
    returns the cipher that [KeyedCipher] builds on the shifted alphabet,
    whose plaintext alphabet is therefore the shifted alphabet; on the
    empty key it raises [ValueError], on the empty alphabet
    [ZeroDivisionError]. *)
Theorem X9_shift_then_key key (shift_amount : Z) alphabet :
  (chars alphabet = [] ->
   get_combined_cipher key shift_amount (Some alphabet) true = Raise ZeroDivisionError) /\
  (chars alphabet ≠ [] -> key = [] ->
   get_combined_cipher key shift_amount (Some alphabet) true
   = Raise (ValueError keyword_non_null)) /\
  (chars alphabet ≠ [] -> key ≠ [] ->
   let shifted :=
     with_chars alphabet
       (rotate_left (Z.to_nat (shift_amount mod Z.of_nat (length (chars alphabet))))
          (chars alphabet)) in
   get_combined_cipher key shift_amount (Some alphabet) true
   = KeyedCipher.__init__ key (Some shifted) /\
   forall c,
     get_combined_cipher key shift_amount (Some alphabet) true = Ok c ->
     plaintext_list c = chars shifted /\
     _generate_case_handled_ciphertext_alphabet shifted key = Ok (ciphertext_list c)).
Proof.
  split; [|split].
  - intros Hempty. unfold get_combined_cipher. cbn [from_option id].
    by rewrite Hempty.
  - intros Hne ->. unfold get_combined_cipher. cbn [from_option id].
    by rewrite shifted_alphabet_Ok.
  - intros Hne Hkey shifted.
    assert (get_combined_cipher key shift_amount (Some alphabet) true
            = KeyedCipher.__init__ key (Some shifted)) as Heq.
    { unfold get_combined_cipher. cbn [from_option id].
      by rewrite shifted_alphabet_Ok. }
    split; [exact Heq|]. intros c. rewrite Heq.
    unfold KeyedCipher.__init__. cbn [from_option id].
    rewrite decide_False by (by destruct key).
    intros (ct & Hct & (_ & _ & ->)%Cipher_init_inv)%bind_Ok.
    split; [reflexivity | exact Hct].
Qed.

Lemma X9_shift_then_key_witness :
  get_combined_cipher (str "b") 1 (Some (PyStr [])) true = Raise ZeroDivisionError /\
  get_combined_cipher [] 1 (Some (PyStr (str "abc"))) true
  = Raise (ValueError keyword_non_null) /\
  get_combined_cipher (str "b") 1 (Some (PyStr (str "abc"))) true
  = KeyedCipher.__init__ (str "b") (Some (PyStr (str "bca"))) /\
  forall c,
    get_combined_cipher (str "b") 1 (Some (PyStr (str "abc"))) true = Ok c ->
    plaintext_list c = str "bca" /\
    _generate_case_handled_ciphertext_alphabet (PyStr (str "bca")) (str "b")
    = Ok (ciphertext_list c).
Proof.
  split; [|split].
  - destruct (X9_shift_then_key (str "b") 1 (PyStr [])) as (Hempty & _ & _).
    apply Hempty. reflexivity.
  - destruct (X9_shift_then_key [] 1 (PyStr (str "abc"))) as (_ & Hkey & _).
    apply Hkey; [discriminate | reflexivity].
  - destruct (X9_shift_then_key (str "b") 1 (PyStr (str "abc"))) as (_ & _ & Hboth).
    apply Hboth; discriminate.
Defined.

(** X10.  The two orders of the combined builder treat the empty key
    differently: with [shift_first=False] nothing checks the key, and on a
    non-empty alphabet the result is the plain [ShiftedCipher] of that
    alphabet; with [shift_first=True] the empty key is rejected with
    [ValueError]. *)
Theorem X10_key_first_accepts_empty_key (shift_amount : Z) alphabet :
  chars alphabet ≠ [] ->
  get_combined_cipher [] shift_amount (Some alphabet) false
  = ShiftedCipher.__init__ shift_amount (Some (chars alphabet)) /\
  (exists c, get_combined_cipher [] shift_amount (Some alphabet) false = Ok c) /\
  get_combined_cipher [] shift_amount (Some alphabet) true
  = Raise (ValueError keyword_non_null).
Proof.
  intros Hne.
  assert (get_combined_cipher [] shift_amount (Some alphabet) false
          = ShiftedCipher.__init__ shift_amount (Some (chars alphabet))) as Heq.
  { unfold get_combined_cipher. cbn [from_option id].
    by rewrite case_handled_empty_key. }
  split; [exact Heq|]. rewrite Heq. split.
  - pose proof (ShiftedCipher_Ok (chars alphabet) shift_amount Hne) as Hc.
    cbn zeta in Hc. eauto.
  - unfold get_combined_cipher. cbn [from_option id].
    by rewrite shifted_alphabet_Ok.
Qed.

Lemma X10_key_first_accepts_empty_key_witness :
  get_combined_cipher [] 2 (Some (PyStr (str "abc"))) false
  = ShiftedCipher.__init__ 2 (Some (str "abc")) /\
  (exists c, get_combined_cipher [] 2 (Some (PyStr (str "abc"))) false = Ok c) /\
  get_combined_cipher [] 2 (Some (PyStr (str "abc"))) true
  = Raise (ValueError keyword_non_null).
Proof.
  apply (X10_key_first_accepts_empty_key 2 (PyStr (str "abc"))). discriminate.
Defined.

(** X11.  With [shift_first=True] on [string.ascii_letters], the key is
    split by case only when the shift amount is a multiple of 52: for any
    other amount the shifted alphabet differs from
    [string.ascii_letters], and the key is applied to it as it is given,
    lower and upper case being different characters. *)
Theorem X11_shift_first_loses_case_split key (shift_amount : Z) :
  (shift_amount mod 52)%Z ≠ 0%Z -> key ≠ [] ->
  let shifted := rotate_left (Z.to_nat (shift_amount mod 52)) ascii_letters in
  shifted ≠ ascii_letters /\
  get_combined_cipher key shift_amount (Some (PyStr ascii_letters)) true
  = bind (_generate_keyword_based_ciphertext_alphabet shifted key)
         (fun ciphertext_alphabet => Cipher.__init__ ciphertext_alphabet shifted).
Proof.
  intros Hk Hkey shifted.
  pose proof (Z.mod_pos_bound shift_amount 52 ltac:(lia)) as Hbound.
  assert (shifted ≠ ascii_letters) as Hne.
  { apply rotate_left_ne.
    - by_evaluation.
    - change (length ascii_letters) with 52. lia.
    - lia. }
  split; [exact Hne|].
  unfold get_combined_cipher. cbn [from_option id].
  rewrite shifted_alphabet_Ok by discriminate.
  change (Z.of_nat (length ascii_letters)) with 52%Z. fold shifted. cbn [bind].
  unfold KeyedCipher.__init__. cbn [from_option id].
  rewrite decide_False by (by destruct key).
  unfold _generate_case_handled_ciphertext_alphabet.
  by rewrite decide_False by (intros [= Heq]; by apply Hne).
Qed.

Lemma X11_shift_first_loses_case_split_witness :
  rotate_left (Z.to_nat (1 mod 52)) ascii_letters ≠ ascii_letters /\
  get_combined_cipher (str "Key") 1 (Some (PyStr ascii_letters)) true
  = bind (_generate_keyword_based_ciphertext_alphabet
            (rotate_left (Z.to_nat (1 mod 52)) ascii_letters) (str "Key"))
         (fun ciphertext_alphabet =>
            Cipher.__init__ ciphertext_alphabet
              (rotate_left (Z.to_nat (1 mod 52)) ascii_letters)).
Proof.
  apply (X11_shift_first_loses_case_split (str "Key") 1); discriminate.
Defined.

(** ** Every builder returns a cipher that round-trips *)

Lemma shifted_alphabet_Permutation alphabet k r :
  _generate_shifted_alphabet alphabet k = Ok r -> r ≡ₚ alphabet.
Proof.
  unfold _generate_shifted_alphabet. case_decide; [discriminate|].
  intros [= <-]. apply rotate_left_Permutation.
Qed.

Lemma KeyedCipher_inv key pa c :
  KeyedCipher.__init__ key pa = Ok c ->
  exists ct,
    Cipher.__init__ ct (chars (default (PyList PRINTABLE_ASCII_ALPHABET) pa)) = Ok c.
Proof.
  unfold KeyedCipher.__init__. case_decide; [discriminate|].
  intros (ct & _ & Hc)%bind_Ok. eauto.
Qed.

Lemma ShiftedCipher_inv k pa c :
  ShiftedCipher.__init__ k pa = Ok c ->
  exists ct, Cipher.__init__ ct (default PRINTABLE_ASCII_ALPHABET pa) = Ok c.
Proof.
  unfold ShiftedCipher.__init__. intros (ct & _ & Hc)%bind_Ok. eauto.
Qed.

Lemma builders_inv key k pa shift_first c :
  KeyedCipher.__init__ key pa = Ok c \/
  ShiftedCipher.__init__ k (chars <$> pa) = Ok c \/
  get_combined_cipher key k pa shift_first = Ok c ->
  exists ct pt,
    Cipher.__init__ ct pt = Ok c /\
    pt ≡ₚ chars (default (PyList PRINTABLE_ASCII_ALPHABET) pa).
Proof.
  intros [Hc|[Hc|Hc]].
  - apply KeyedCipher_inv in Hc as [ct Hc]. eauto.
  - apply ShiftedCipher_inv in Hc as [ct Hc]. exists ct. eexists. split; [exact Hc|].
    by destruct pa.
  - unfold get_combined_cipher in Hc. destruct shift_first.
    + apply bind_Ok in Hc as (shifted & Hshifted & Hc).
      apply KeyedCipher_inv in Hc as [ct Hc]. cbn [from_option id] in Hc.
      rewrite chars_with_chars in Hc.
      apply shifted_alphabet_Permutation in Hshifted. eauto.
    + apply bind_Ok in Hc as (reordered & Hreordered & Hc).
      apply ShiftedCipher_inv in Hc as [ct Hc]. cbn [from_option id] in Hc.
      apply case_handled_Permutation in Hreordered. eauto.
Qed.

Lemma PRINTABLE_ASCII_ALPHABET_NoDup : NoDup PRINTABLE_ASCII_ALPHABET.
Proof. by_evaluation. Qed.

(** X12.  Whatever the key, the shift amount and the order, a cipher that
    [KeyedCipher], [ShiftedCipher] or [get_combined_cipher] returns for a
    duplicate-free base alphabet, a [str] or a list, is a bijection:
    [decrypt(encrypt(s)) == s] and [encrypt(decrypt(s)) == s] for every
    string [s].  The default alphabet is duplicate-free. *)
Theorem X12_builders_round_trip key (k : Z) pa shift_first c s :
  NoDup (chars (default (PyList PRINTABLE_ASCII_ALPHABET) pa)) ->
  KeyedCipher.__init__ key pa = Ok c \/
  ShiftedCipher.__init__ k (chars <$> pa) = Ok c \/
  get_combined_cipher key k pa shift_first = Ok c ->
  bind (Cipher.encrypt c s) (Cipher.decrypt c) = Ok s /\
  bind (Cipher.decrypt c s) (Cipher.encrypt c) = Ok s.
Proof.
  intros Hnd (ct & pt & Hc & Hperm)%builders_inv.
  rewrite <- Hperm in Hnd.
  split; [by eapply decrypt_encrypt_NoDup | by eapply encrypt_decrypt_NoDup].
Qed.

Lemma X12_builders_round_trip_witness :
  exists c,
    get_combined_cipher (str "secret key") 7 None false = Ok c /\
    bind (Cipher.encrypt c (str "Hello, World!")) (Cipher.decrypt c)
    = Ok (str "Hello, World!") /\
    bind (Cipher.decrypt c (str "Hello, World!")) (Cipher.encrypt c)
    = Ok (str "Hello, World!").
Proof.
  eexists. split; [vm_compute; reflexivity|].
  apply (X12_builders_round_trip (str "secret key") 7 None false).
  - exact PRINTABLE_ASCII_ALPHABET_NoDup.
  - right. right. vm_compute. reflexivity.
Defined.

(** X13.  The cipher of [main.py] is constructed without error, and on it
    the assertion [message == decrypted] of [generate_files] holds for
    every message: [encrypt] returns a ciphertext and [decrypt] returns
    the message from it. *)
Theorem X13_main_assertion_holds :
  exists c,
    main_cipher = Ok c /\
    forall message, exists encrypted,
      Cipher.encrypt c message = Ok encrypted /\
      Cipher.decrypt c encrypted = Ok message.
Proof.
  assert (exists c, main_cipher = Ok c) as [c Hc].
  { eexists. vm_compute. reflexivity. }
  exists c. split; [exact Hc|]. intros message.
  apply bind_Ok. unfold main_cipher in Hc.
  destruct (builders_inv _ (-42000) (Some (PyList PRINTABLE_ASCII_ALPHABET)) true c
              (or_intror (or_intror Hc))) as (ct & pt & Hinit & Hperm).
  eapply decrypt_encrypt_NoDup; [|exact Hinit].
  rewrite Hperm. exact PRINTABLE_ASCII_ALPHABET_NoDup.
Qed.

(** ** The three alphabets of a constructed cipher *)

Lemma fmap_mapped_self src dst :
  NoDup src -> length src = length dst -> mapped src dst <$> src = dst.
Proof.
  intros Hnd Hlen. apply list_eq. intros i. rewrite list_lookup_fmap.
  destruct (src !! i) as [x|] eqn:Hx; cbn.
  - symmetry. apply mapped_elem_of; [by apply index_NoDup|].
    apply lookup_lt_Some in Hx. lia.
  - symmetry. apply lookup_ge_None. apply lookup_ge_None in Hx. lia.
Qed.

(** X14.  On a cipher constructed from a duplicate-free plaintext
    alphabet: encrypting the plaintext alphabet gives the ciphertext
    alphabet, decrypting the ciphertext alphabet gives the plaintext
    alphabet, decrypting the plaintext alphabet gives the inverse
    alphabet, the inverse alphabet is a permutation of the plaintext
    alphabet, and for every position [i] the inverse alphabet holds
    [plaintext[i]] at the plaintext position of [ciphertext[i]]. *)
Theorem X14_alphabets_of_a_cipher ct pt c :
  NoDup pt ->
  Cipher.__init__ ct pt = Ok c ->
  Cipher.encrypt c pt = Ok ct /\
  Cipher.decrypt c ct = Ok pt /\
  Cipher.decrypt c pt = Ok (inverse_list c) /\
  inverse_list c ≡ₚ pt /\
  forall i x,
    ct !! i = Some x ->
    exists j, index pt x = Some j /\ inverse_list c !! j = pt !! i.
Proof.
  intros Hnd Hc.
  pose proof (encrypt_total _ _ _ pt Hc) as Henc.
  pose proof (decrypt_total _ _ _ ct Hc) as Hdec.
  pose proof (decrypt_total _ _ _ pt Hc) as Hdec'.
  apply Cipher_init_inv in Hc as (Hlen & Hset & ->). cbn [inverse_list].
  pose proof (same_set_NoDup pt ct Hlen Hset Hnd) as Hnd'.
  assert (mapped ct pt <$> ct = pt) as Hback
    by (by apply fmap_mapped_self).
  assert (pt ≡ₚ ct) as Hperm by (by apply NoDup_Permutation).
  split; [|split; [|split; [|split]]].
  - rewrite Henc. f_equal. by apply fmap_mapped_self.
  - by rewrite Hdec, Hback.
  - exact Hdec'.
  - transitivity (mapped ct pt <$> ct); [by apply fmap_Permutation|].
    by rewrite Hback.
  - intros i x Hx.
    destruct (index_elem_of pt x) as [j Hj].
    { apply Hset. by eapply list_elem_of_lookup_2. }
    exists j. split; [exact Hj|].
    rewrite list_lookup_fmap. apply index_Some in Hj as [-> _]. cbn.
    symmetry. apply mapped_elem_of; [by apply index_NoDup|].
    apply lookup_lt_Some in Hx. lia.
Qed.

Lemma X14_alphabets_of_a_cipher_witness :
  Cipher.encrypt (mkCipher (str "abc") (str "bca") (str "cab")) (str "abc") = Ok (str "bca") /\
  Cipher.decrypt (mkCipher (str "abc") (str "bca") (str "cab")) (str "bca") = Ok (str "abc") /\
  Cipher.decrypt (mkCipher (str "abc") (str "bca") (str "cab")) (str "abc") = Ok (str "cab") /\
  str "cab" ≡ₚ str "abc" /\
  forall i x,
    str "bca" !! i = Some x ->
    exists j, index (str "abc") x = Some j /\ str "cab" !! j = str "abc" !! i.
Proof.
  apply (X14_alphabets_of_a_cipher (str "bca") (str "abc")).
  - by_evaluation.
  - reflexivity.
Defined.

(** ** Encryption works character by character *)

(** X15.  On a constructed cipher, [encrypt] and [decrypt] distribute
    over concatenation, and text made of alphabet characters is mapped to
    text made of alphabet characters. *)
Theorem X15_character_by_character ct pt c s1 s2 :
  Cipher.__init__ ct pt = Ok c ->
  (exists e1 e2,
     Cipher.encrypt c s1 = Ok e1 /\ Cipher.encrypt c s2 = Ok e2 /\
     Cipher.encrypt c (s1 ++ s2) = Ok (e1 ++ e2) /\
     ((forall ch, ch ∈ s1 -> ch ∈ pt) -> forall ch, ch ∈ e1 -> ch ∈ pt)) /\
  (exists d1 d2,
     Cipher.decrypt c s1 = Ok d1 /\ Cipher.decrypt c s2 = Ok d2 /\
     Cipher.decrypt c (s1 ++ s2) = Ok (d1 ++ d2) /\
     ((forall ch, ch ∈ s1 -> ch ∈ pt) -> forall ch, ch ∈ d1 -> ch ∈ pt)).
Proof.
  intros Hc.
  assert (forall src dst, length src <= length dst ->
            forall (t : list ascii) ch, (forall x, x ∈ t -> x ∈ src) ->
              ch ∈ mapped src dst <$> t -> ch ∈ dst) as Hclosed.
  { intros src dst Hle t ch Ht (x & -> & Hx)%list_elem_of_fmap.
    destruct (index_elem_of src x (Ht x Hx)) as [i Hi].
    eapply list_elem_of_lookup_2, mapped_elem_of; [exact Hi|].
    apply index_lt in Hi. lia. }
  pose proof (Cipher_init_inv _ _ _ Hc) as (Hlen & Hset & _).
  split.
  - exists (mapped pt ct <$> s1), (mapped pt ct <$> s2).
    rewrite !(encrypt_total _ _ _ _ Hc), fmap_app.
    repeat split. intros Hs1 ch Hch. apply Hset.
    apply (Hclosed pt ct ltac:(lia) s1 ch Hs1 Hch).
  - exists (mapped ct pt <$> s1), (mapped ct pt <$> s2).
    rewrite !(decrypt_total _ _ _ _ Hc), fmap_app.
    repeat split. intros Hs1 ch Hch.
    apply (Hclosed ct pt ltac:(lia) s1 ch); [|exact Hch].
    intros x Hx. by apply Hset, Hs1.
Qed.

Lemma X15_character_by_character_witness :
  (exists e1 e2,
     Cipher.encrypt (mkCipher (str "abc") (str "bca") (str "cab")) (str "cab") = Ok e1 /\
     Cipher.encrypt (mkCipher (str "abc") (str "bca") (str "cab")) (str " b!") = Ok e2 /\
     Cipher.encrypt (mkCipher (str "abc") (str "bca") (str "cab")) (str "cab" ++ str " b!")
     = Ok (e1 ++ e2) /\
     ((forall ch, ch ∈ str "cab" -> ch ∈ str "abc") ->
      forall ch, ch ∈ e1 -> ch ∈ str "abc")) /\
  (exists d1 d2,
     Cipher.decrypt (mkCipher (str "abc") (str "bca") (str "cab")) (str "cab") = Ok d1 /\
     Cipher.decrypt (mkCipher (str "abc") (str "bca") (str "cab")) (str " b!") = Ok d2 /\
     Cipher.decrypt (mkCipher (str "abc") (str "bca") (str "cab")) (str "cab" ++ str " b!")
     = Ok (d1 ++ d2) /\
     ((forall ch, ch ∈ str "cab" -> ch ∈ str "abc") ->
      forall ch, ch ∈ d1 -> ch ∈ str "abc")).
Proof.
  apply (X15_character_by_character (str "bca") (str "abc")). reflexivity.
Defined.

(** X16.  On a cipher constructed from a duplicate-free plaintext
    alphabet, different plaintexts have different ciphertexts. *)
Theorem X16_encrypt_is_injective ct pt c s1 s2 :
  NoDup pt ->
  Cipher.__init__ ct pt = Ok c ->
  s1 ≠ s2 -> Cipher.encrypt c s1 ≠ Cipher.encrypt c s2.
Proof.
  intros Hnd Hc Hne Heq. apply Hne.
  pose proof (decrypt_encrypt_NoDup _ _ _ s1 Hnd Hc) as H1.
  pose proof (decrypt_encrypt_NoDup _ _ _ s2 Hnd Hc) as H2.
  rewrite Heq in H1. congruence.
Qed.

Lemma X16_encrypt_is_injective_witness :
  Cipher.encrypt (mkCipher (str "abc") (str "bca") (str "cab")) (str "a-b")
  ≠ Cipher.encrypt (mkCipher (str "abc") (str "bca") (str "cab")) (str "b-a").
Proof.
  apply (X16_encrypt_is_injective (str "bca") (str "abc")).
  - by_evaluation.
  - reflexivity.
  - discriminate.
Defined.

(** ** Keys that give the same cipher *)

Lemma elem_of_first_occurrences seen key x :
  x ∈ first_occurrences seen key <-> x ∈ key /\ x ∉ seen.
Proof.
  revert seen. induction key as [|c key IH]; intros seen; cbn [first_occurrences].
  - rewrite !elem_of_nil. tauto.
  - case_bool_decide as Hc.
    + rewrite IH, elem_of_cons. split; [tauto|].
      intros [[->|Hx] Hseen]; [contradiction | tauto].
    + rewrite !elem_of_cons, IH, elem_of_app, list_elem_of_singleton.
      destruct (decide (x = c)) as [->|Hne]; tauto.
Qed.

Lemma filter_none (P : ascii -> Prop) `{!forall x, Decision (P x)} (l : list ascii) :
  (forall x, x ∈ l -> ¬ P x) -> filter P l = [].
Proof.
  induction l as [|y l IH]; intros HP; [reflexivity|].
  rewrite filter_cons_False by (apply HP; left).
  apply IH. intros x Hx. apply HP. by right.
Qed.

Lemma filter_not_in_prefix (l1 l2 : list ascii) :
  NoDup (l1 ++ l2) -> filter (fun x => x ∉ l1) (l1 ++ l2) = l2.
Proof.
  intros (_ & Hdisjoint & _)%NoDup_app. rewrite filter_app.
  rewrite filter_none by (intros x Hx Hnot; contradiction).
  cbn. apply filter_all. intros x Hx Hin. by apply (Hdisjoint x).
Qed.

(** X17.  On a duplicate-free alphabet only the first occurrences of the
    key characters matter: two keys over the alphabet with the same
    characters in the same order of first occurrence give the same
    ciphertext alphabet. *)
Theorem X17_repeated_key_characters_are_ignored alphabet key1 key2 :
  NoDup alphabet ->
  (forall ch, ch ∈ key1 -> ch ∈ alphabet) ->
  (forall ch, ch ∈ key2 -> ch ∈ alphabet) ->
  first_occurrences [] key1 = first_occurrences [] key2 ->
  _generate_keyword_based_ciphertext_alphabet alphabet key1
  = _generate_keyword_based_ciphertext_alphabet alphabet key2.
Proof.
  intros Hnd Hkey1 Hkey2 Hsame.
  rewrite !keyword_based_closed by assumption. rewrite Hsame. do 2 f_equal.
  apply list_filter_iff. intros x.
  pose proof (elem_of_first_occurrences [] key1 x) as H1.
  pose proof (elem_of_first_occurrences [] key2 x) as H2.
  rewrite Hsame in H1. rewrite elem_of_nil in H1, H2. tauto.
Qed.

Lemma X17_repeated_key_characters_are_ignored_witness :
  _generate_keyword_based_ciphertext_alphabet (str "0123456789") (str "5158414")
  = _generate_keyword_based_ciphertext_alphabet (str "0123456789") (str "5184").
Proof.
  apply (X17_repeated_key_characters_are_ignored (str "0123456789")).
  - by_evaluation.
  - by_evaluation_on_elements.
  - by_evaluation_on_elements.
  - reflexivity.
Defined.

(** X18.  A key that spells the beginning of a duplicate-free alphabet is
    a weak key: when the first occurrences of its characters are the first
    characters of the alphabet, in order, the ciphertext alphabet is the
    alphabet itself and [KeyedCipher] returns the identity cipher. *)
Theorem X18_prefix_key_is_identity alphabet key n :
  NoDup (chars alphabet) -> alphabet ≠ PyStr ascii_letters -> key ≠ [] ->
  first_occurrences [] key = take n (chars alphabet) ->
  _generate_keyword_based_ciphertext_alphabet (chars alphabet) key
  = Ok (chars alphabet) /\
  exists c,
    KeyedCipher.__init__ key (Some alphabet) = Ok c /\
    forall s, Cipher.encrypt c s = Ok s /\ Cipher.decrypt c s = Ok s.
Proof.
  intros Hnd Hletters Hkey Hprefix.
  assert (exists characters, characters = chars alphabet) as [characters Heq] by eauto.
  rewrite <- Heq in Hnd, Hprefix |- *.
  assert (forall ch, ch ∈ key <-> ch ∈ take n characters) as Hchars.
  { intros ch. rewrite <- Hprefix, elem_of_first_occurrences, elem_of_nil. tauto. }
  assert (_generate_keyword_based_ciphertext_alphabet characters key = Ok characters)
    as Hct.
  { rewrite keyword_based_closed.
    - rewrite Hprefix. f_equal.
      rewrite (list_filter_iff _ (fun x => x ∉ take n characters))
        by (intros x; by rewrite Hchars).
      rewrite <- (take_drop n characters) at 2.
      rewrite filter_not_in_prefix by (by rewrite take_drop).
      apply take_drop.
    - assumption.
    - intros ch Hch%Hchars. by apply (subseteq_take n characters). }
  split; [exact Hct|].
  assert (_generate_case_handled_ciphertext_alphabet alphabet key = Ok characters)
    as Hct'.
  { unfold _generate_case_handled_ciphertext_alphabet.
    rewrite decide_False by assumption. by rewrite <- Heq. }
  pose proof (KeyedCipher_of_ciphertext key alphabet characters Hkey Hct') as Hc.
  rewrite <- Heq in Hc.
  eexists. split; [exact Hc|]. intros s.
  assert (forall ch, mapped characters characters ch = ch) as Hid.
  { intros ch. unfold mapped.
    destruct (index characters ch) as [i|] eqn:Hi; [|reflexivity].
    apply index_Some in Hi as [-> _]. reflexivity. }
  assert (mapped characters characters <$> s = s) as Hs.
  { rewrite <- (list_fmap_id s) at 2. apply list_fmap_ext. intros _ ch _. apply Hid. }
  unfold KeyedCipher.__init__ in Hc. cbn [from_option id] in Hc.
  rewrite decide_False, Hct' in Hc by (by destruct key). cbn [bind] in Hc.
  rewrite <- Heq in Hc.
  rewrite (encrypt_total _ _ _ s Hc), (decrypt_total _ _ _ s Hc), Hs. tauto.
Qed.

Lemma X18_prefix_key_is_identity_witness :
  _generate_keyword_based_ciphertext_alphabet (str "0123456789") (str "0010212")
  = Ok (str "0123456789") /\
  exists c,
    KeyedCipher.__init__ (str "0010212") (Some (PyStr (str "0123456789"))) = Ok c /\
    forall s, Cipher.encrypt c s = Ok s /\ Cipher.decrypt c s = Ok s.
Proof.
  apply (X18_prefix_key_is_identity (PyStr (str "0123456789")) (str "0010212") 3).
  - by_evaluation.
  - discriminate.
  - discriminate.
  - reflexivity.
Defined.

(** ** The internal functions on arbitrary lists *)

Lemma for_in_app {A S : Type} (xs ys : list A) (body : S -> A -> result S) (s : S) :
  for_in (xs ++ ys) body s = bind (for_in xs body s) (for_in ys body).
Proof.
  revert s. induction xs as [|x xs IH]; intros s; cbn [app for_in]; [reflexivity|].
  destruct (body s x); cbn [bind]; [apply IH | reflexivity].
Qed.

Lemma mapping_loop_good msg src dst acc :
  (forall ch i, ch ∈ msg -> index src ch = Some i -> i < length dst) ->
  for_in msg (mapping_loop_body src dst) acc = Ok (acc ++ (mapped src dst <$> msg)).
Proof.
  revert acc. induction msg as [|c msg IH]; intros acc Hgood; cbn [for_in].
  - by rewrite app_nil_r.
  - assert (mapping_loop_body src dst acc c = Ok (acc ++ [mapped src dst c])) as ->.
    { unfold mapping_loop_body, mapped, getitem.
      destruct (index src c) as [i|] eqn:E; [|reflexivity].
      destruct (lookup_lt_is_Some_2 dst i) as [y ->]; [|reflexivity].
      apply (Hgood c); [left | assumption]. }
    cbn [bind]. rewrite IH, fmap_cons, <- app_assoc; [reflexivity|].
    intros ch i Hch. apply Hgood. by right.
Qed.

(** X19.  [_apply_mapping] on arbitrary lists: when every message
    character found in the source list is found at a position that the
    destination list has, the result is the message of the same length
    with each such character replaced by the destination character at that
    position and the other characters unchanged; the first message
    character found at a position beyond the destination list makes it
    raise [IndexError], which the handler for [ValueError] does not
    catch. *)
Theorem X19_apply_mapping_outcomes msg src dst :
  ((forall ch i, ch ∈ msg -> index src ch = Some i -> i < length dst) ->
   exists r,
     _apply_mapping msg src dst = Ok r /\ length r = length msg /\
     forall j ch, msg !! j = Some ch ->
       r !! j = Some (match index src ch with
                      | Some i => default ch (dst !! i)
                      | None => ch
                      end)) /\
  (forall msg1 ch msg2 i,
     msg = msg1 ++ ch :: msg2 ->
     (forall x k, x ∈ msg1 -> index src x = Some k -> k < length dst) ->
     index src ch = Some i -> length dst <= i ->
     _apply_mapping msg src dst = Raise IndexError).
Proof.
  split.
  - intros Hgood. exists (mapped src dst <$> msg).
    unfold _apply_mapping. rewrite mapping_loop_good by assumption.
    split; [reflexivity|]. split; [by rewrite length_fmap|].
    intros j ch Hj. by rewrite list_lookup_fmap, Hj.
  - intros msg1 ch msg2 i -> Hgood Hi Hlen.
    unfold _apply_mapping. rewrite for_in_app, mapping_loop_good by assumption.
    cbn [bind for_in]. unfold mapping_loop_body at 1, getitem.
    by rewrite Hi, lookup_ge_None_2.
Qed.

Lemma X19_apply_mapping_outcomes_witness :
  (exists r,
     _apply_mapping (str "a-b") (str "abc") (str "xy") = Ok r /\
     length r = length (str "a-b") /\
     forall j ch, str "a-b" !! j = Some ch ->
       r !! j = Some (match index (str "abc") ch with
                      | Some i => default ch (str "xy" !! i)
                      | None => ch
                      end)) /\
  _apply_mapping (str "a-c") (str "abc") (str "xy") = Raise IndexError.
Proof.
  split.
  - apply (X19_apply_mapping_outcomes (str "a-b") (str "abc") (str "xy")).
    intros ch i Hch. revert i.
    apply (proj1 (Forall_forall
      (fun ch => forall i, index (str "abc") ch = Some i -> i < length (str "xy"))
      (str "a-b"))); [|exact Hch].
    repeat (apply List.Forall_cons;
            [intros i Hi; vm_compute in Hi;
             first [discriminate | injection Hi as <-; cbn; lia]|]).
    apply List.Forall_nil.
  - destruct (X19_apply_mapping_outcomes (str "a-c") (str "abc") (str "xy"))
      as [_ Hfail].
    apply (Hfail (str "a-") "c"%char [] 2); [reflexivity | | reflexivity | cbn; lia].
    intros x k Hx. revert k.
    apply (proj1 (Forall_forall
      (fun x => forall k, index (str "abc") x = Some k -> k < length (str "xy"))
      (str "a-"))); [|exact Hx].
    repeat (apply List.Forall_cons;
            [intros k Hk; vm_compute in Hk;
             first [discriminate | injection Hk as <-; cbn; lia]|]).
    apply List.Forall_nil.
Defined.

Lemma inverse_loop_good pt ct l acc :
  (forall ch, ch ∈ l -> exists i, index ct ch = Some i /\ i < length pt) ->
  for_in l (inverse_loop_body pt ct) acc = Ok (acc ++ (mapped ct pt <$> l)).
Proof.
  revert acc. induction l as [|c l IH]; intros acc Hgood; cbn [for_in].
  - by rewrite app_nil_r.
  - destruct (Hgood c) as (i & Hi & Hlt); [left|].
    unfold inverse_loop_body at 1, index_exn, getitem.
    rewrite Hi. cbn [bind]. rewrite (mapped_elem_of ct pt c i Hi Hlt). cbn [bind].
    rewrite IH, fmap_cons, <- app_assoc; [reflexivity|].
    intros ch Hch. apply Hgood. by right.
Qed.

(** X20.  [_generate_inverse] on arbitrary lists: it returns a list, as
    long as the plaintext list, exactly when every plaintext character
    occurs in the ciphertext list at a position that the plaintext list
    has.  The first plaintext character missing from the ciphertext list
    makes it raise the [ValueError] of [list.index]; the first one found
    at a position beyond the plaintext list makes it raise
    [IndexError]. *)
Theorem X20_generate_inverse_outcomes pt ct :
  ((forall ch, ch ∈ pt -> exists i, index ct ch = Some i /\ i < length pt) ->
   exists inverse,
     _generate_inverse pt ct = Ok inverse /\ length inverse = length pt /\
     forall j ch i, pt !! j = Some ch -> index ct ch = Some i ->
       inverse !! j = pt !! i) /\
  (forall pt1 ch pt2,
     pt = pt1 ++ ch :: pt2 ->
     (forall x, x ∈ pt1 -> exists k, index ct x = Some k /\ k < length pt) ->
     (ch ∉ ct -> _generate_inverse pt ct = Raise (ValueError not_in_list)) /\
     (forall i, index ct ch = Some i -> length pt <= i ->
        _generate_inverse pt ct = Raise IndexError)).
Proof.
  split.
  - intros Hgood. exists (mapped ct pt <$> pt).
    unfold _generate_inverse. rewrite inverse_loop_good by assumption.
    split; [reflexivity|]. split; [by rewrite length_fmap|].
    intros j ch i Hj Hi. rewrite list_lookup_fmap, Hj. cbn.
    symmetry. apply mapped_elem_of; [assumption|].
    destruct (Hgood ch) as (i' & Hi' & Hlt); [by eapply list_elem_of_lookup_2|].
    congruence.
  - intros pt1 ch pt2 Hpt Hgood.
    assert (forall e,
              inverse_loop_body pt ct ([] ++ (mapped ct pt <$> pt1)) ch = Raise e ->
              _generate_inverse pt ct = Raise e) as Hstep.
    { intros e He. unfold _generate_inverse. rewrite Hpt at 1.
      rewrite for_in_app, inverse_loop_good by assumption.
      cbn [bind for_in]. by rewrite He. }
    split.
    + intros Hch. apply Hstep. unfold inverse_loop_body, index_exn.
      apply index_None in Hch. by rewrite Hch.
    + intros i Hi Hlen. apply Hstep. unfold inverse_loop_body, index_exn, getitem.
      rewrite Hi. cbn [bind]. by rewrite lookup_ge_None_2.
Qed.

Lemma X20_generate_inverse_outcomes_witness :
  (exists inverse,
     _generate_inverse (str "abc") (str "bca") = Ok inverse /\
     length inverse = length (str "abc") /\
     forall j ch i, str "abc" !! j = Some ch -> index (str "bca") ch = Some i ->
       inverse !! j = str "abc" !! i) /\
  _generate_inverse (str "abd") (str "abc") = Raise (ValueError not_in_list) /\
  _generate_inverse (str "ab") (str "xab") = Raise IndexError.
Proof.
  split; [|split].
  - apply (X20_generate_inverse_outcomes (str "abc") (str "bca")).
    apply (proj1 (Forall_forall _ _)).
    repeat (apply List.Forall_cons;
            [eexists; split; [vm_compute; reflexivity | cbn; lia]|]).
    apply List.Forall_nil.
  - destruct (X20_generate_inverse_outcomes (str "abd") (str "abc")) as [_ Hfail].
    destruct (Hfail (str "ab") "d"%char []) as [Hmissing _]; [reflexivity | |].
    + apply (proj1 (Forall_forall _ _)).
      repeat (apply List.Forall_cons;
              [eexists; split; [vm_compute; reflexivity | cbn; lia]|]).
      apply List.Forall_nil.
    + apply Hmissing. by_evaluation.
  - destruct (X20_generate_inverse_outcomes (str "ab") (str "xab")) as [_ Hfail].
    destruct (Hfail (str "a") "b"%char []) as [_ Hbeyond]; [reflexivity | |].
    + apply (proj1 (Forall_forall _ _)).
      repeat (apply List.Forall_cons;
              [eexists; split; [vm_compute; reflexivity | cbn; lia]|]).
      apply List.Forall_nil.
    + apply (Hbeyond 2); [reflexivity | cbn; lia].
Defined.

(** ** [binary_search] *)

(** One turn of the loop of [bisect_left]. *)
Lemma bisect_left_loop a x lo hi :
  bisect_left a x lo hi
  = if decide (lo < hi) then
      match a !! ((lo + hi) / 2) with
      | Some y =>
          if decide (y < x)%Z then bisect_left a x ((lo + hi) / 2 + 1) hi
          else bisect_left a x lo ((lo + hi) / 2)
      | None => Raise IndexError
      end
    else Ok lo.
Proof.
  funelim (bisect_left a x lo hi);
    repeat match goal with
           | H : decide _ = _ |- _ => rewrite H; clear H
           | H : _ !! _ = _ |- _ => rewrite H; clear H
           end;
    reflexivity.
Qed.

Lemma midpoint_bounds lo hi : lo < hi -> lo <= (lo + hi) / 2 < hi.
Proof.
  intros Hlt. pose proof (Nat.div_mod_eq (lo + hi) 2).
  pose proof (Nat.mod_upper_bound (lo + hi) 2 ltac:(lia)). lia.
Qed.

Lemma bisect_left_in_range a x lo hi :
  lo <= hi <= length a ->
  exists p, bisect_left a x lo hi = Ok p /\ lo <= p <= hi.
Proof.
  remember (hi - lo) as n eqn:Hn. revert lo hi Hn.
  induction n as [n IH] using lt_wf_ind. intros lo hi -> Hrange.
  rewrite bisect_left_loop. case_decide as Hlt; [|exists lo; split; [reflexivity | lia]].
  pose proof (midpoint_bounds lo hi Hlt) as Hmid.
  destruct (lookup_lt_is_Some_2 a ((lo + hi) / 2) ltac:(lia)) as [y ->].
  case_decide.
  - destruct (IH (hi - ((lo + hi) / 2 + 1)) ltac:(lia) _ _ eq_refl ltac:(lia))
      as (p & -> & Hp).
    exists p. split; [reflexivity | lia].
  - destruct (IH ((lo + hi) / 2 - lo) ltac:(lia) _ _ eq_refl ltac:(lia))
      as (p & -> & Hp).
    exists p. split; [reflexivity | lia].
Qed.

Lemma bisect_left_sorted a x lo hi :
  non_decreasing a -> lo <= hi <= length a ->
  exists p,
    bisect_left a x lo hi = Ok p /\ lo <= p <= hi /\
    (forall j y, lo <= j < p -> a !! j = Some y -> (y < x)%Z) /\
    (forall j y, p <= j < hi -> a !! j = Some y -> (x <= y)%Z).
Proof.
  intros Hsorted. remember (hi - lo) as n eqn:Hn. revert lo hi Hn.
  induction n as [n IH] using lt_wf_ind. intros lo hi -> Hrange.
  rewrite bisect_left_loop. case_decide as Hlt.
  2:{ exists lo. split; [reflexivity|]. split; [lia|]. split; intros; lia. }
  pose proof (midpoint_bounds lo hi Hlt) as Hmid.
  destruct (lookup_lt_is_Some_2 a ((lo + hi) / 2) ltac:(lia)) as [y Hy].
  rewrite Hy. case_decide as Hcmp.
  - destruct (IH (hi - ((lo + hi) / 2 + 1)) ltac:(lia) _ _ eq_refl ltac:(lia))
      as (p & -> & Hp & Hbelow & Habove).
    exists p. split; [reflexivity|]. split; [lia|]. split; [|exact Habove].
    intros j z Hj Hz.
    destruct (decide (j <= (lo + hi) / 2)) as [Hle|Hgt].
    + pose proof (Hsorted j _ z y Hle Hz Hy). lia.
    + apply (Hbelow j z); [lia | assumption].
  - destruct (IH ((lo + hi) / 2 - lo) ltac:(lia) _ _ eq_refl ltac:(lia))
      as (p & -> & Hp & Hbelow & Habove).
    exists p. split; [reflexivity|]. split; [lia|]. split; [exact Hbelow|].
    intros j z Hj Hz.
    destruct (decide (j < (lo + hi) / 2)) as [Hlt'|Hge].
    + apply (Habove j z); [lia | assumption].
    + pose proof (Hsorted ((lo + hi) / 2) j y z ltac:(lia) Hy Hz). lia.
Qed.

(** X21.  On any list, sorted or not, a search in a range
    [lower <= upper <= len(arr)] ([upper] omitted or [0] standing for
    [len(arr)]) does not raise, and what it returns is [-1] or a position
    of the range that holds the key. *)
Theorem X21_binary_search_is_sound arr key lower upper :
  lower <= upper_or_len arr upper <= length arr ->
  exists r,
    binary_search arr key lower upper = Ok r /\
    (r = (-1)%Z \/
     exists p, r = Z.of_nat p /\ lower <= p < upper_or_len arr upper /\
               arr !! p = Some key).
Proof.
  intros Hrange. unfold binary_search.
  destruct (bisect_left_in_range arr key lower _ Hrange) as (p & -> & Hp).
  cbn [bind]. case_decide as Hend; [|eauto].
  destruct (lookup_lt_is_Some_2 arr p ltac:(lia)) as [y Hy]. rewrite Hy.
  case_decide as Hkey; [|eauto]. subst y.
  eexists. split; [reflexivity|]. right. exists p.
  split; [reflexivity|]. split; [lia | assumption].
Qed.

Lemma X21_binary_search_is_sound_witness :
  exists r,
    binary_search [5; 1; 4; 1]%Z 4 1 (Some 3) = Ok r /\
    (r = (-1)%Z \/
     exists p, r = Z.of_nat p /\ 1 <= p < upper_or_len [5; 1; 4; 1]%Z (Some 3) /\
               [5; 1; 4; 1]%Z !! p = Some 4%Z).
Proof.
  apply (X21_binary_search_is_sound [5; 1; 4; 1]%Z 4 1 (Some 3)).
  rewrite (eq_refl : upper_or_len [5; 1; 4; 1]%Z (Some 3) = 3). cbn. lia.
Defined.

(** X22.  On a list in non-decreasing order and a range
    [lower <= upper <= len(arr)], the search returns the position of the
    first occurrence of the key in the range, and [-1] exactly when the
    key does not occur in the range. *)
Theorem X22_binary_search_finds_first arr key lower upper :
  non_decreasing arr ->
  lower <= upper_or_len arr upper <= length arr ->
  exists r,
    binary_search arr key lower upper = Ok r /\
    ((r = (-1)%Z /\
      forall j, lower <= j < upper_or_len arr upper -> arr !! j ≠ Some key) \/
     (exists p,
        r = Z.of_nat p /\ lower <= p < upper_or_len arr upper /\
        arr !! p = Some key /\
        forall j, lower <= j < p -> arr !! j ≠ Some key)).
Proof.
  intros Hsorted Hrange. unfold binary_search.
  destruct (bisect_left_sorted arr key lower _ Hsorted Hrange)
    as (p & -> & Hp & Hbelow & Habove).
  cbn [bind].
  assert (forall j, lower <= j < p -> arr !! j ≠ Some key) as Hbefore.
  { intros j Hj Hkey. specialize (Hbelow j key Hj Hkey). lia. }
  case_decide as Hend.
  - destruct (lookup_lt_is_Some_2 arr p ltac:(lia)) as [y Hy]. rewrite Hy.
    case_decide as Hkey.
    + subst y. eexists. split; [reflexivity|]. right. exists p.
      split; [reflexivity|]. split; [lia|]. split; assumption.
    + eexists. split; [reflexivity|]. left. split; [reflexivity|].
      intros j Hj Hj'.
      destruct (decide (j < p)) as [Hlt|Hge]; [by apply (Hbefore j); [lia|]|].
      pose proof (Habove p y ltac:(lia) Hy).
      pose proof (Hsorted p j y key ltac:(lia) Hy Hj'). lia.
  - eexists. split; [reflexivity|]. left. split; [reflexivity|].
    intros j Hj. apply Hbefore. lia.
Qed.

Lemma non_decreasing_nil : non_decreasing [].
Proof. intros i j x y _ Hi. by rewrite lookup_nil in Hi. Qed.

Lemma non_decreasing_cons x arr :
  Forall (fun y => (x <= y)%Z) arr -> non_decreasing arr -> non_decreasing (x :: arr).
Proof.
  intros Hall Harr [|i] [|j] a b Hij Hi Hj; cbn in Hi, Hj.
  - injection Hi as <-. injection Hj as <-. lia.
  - injection Hi as <-. rewrite Forall_forall in Hall.
    apply Hall. by eapply list_elem_of_lookup_2.
  - lia.
  - apply (Harr i j a b); [lia | assumption..].
Qed.

Lemma non_decreasing_example : non_decreasing [1; 3; 3; 3; 8]%Z.
Proof.
  repeat (apply non_decreasing_cons; [by_evaluation|]). apply non_decreasing_nil.
Qed.

Lemma X22_binary_search_finds_first_witness :
  exists r,
    binary_search [1; 3; 3; 3; 8]%Z 3 0 None = Ok r /\
    ((r = (-1)%Z /\
      forall j, 0 <= j < upper_or_len [1; 3; 3; 3; 8]%Z None ->
                [1; 3; 3; 3; 8]%Z !! j ≠ Some 3%Z) \/
     (exists p,
        r = Z.of_nat p /\ 0 <= p < upper_or_len [1; 3; 3; 3; 8]%Z None /\
        [1; 3; 3; 3; 8]%Z !! p = Some 3%Z /\
        forall j, 0 <= j < p -> [1; 3; 3; 3; 8]%Z !! j ≠ Some 3%Z)).
Proof.
  apply (X22_binary_search_finds_first [1; 3; 3; 3; 8]%Z 3 0 None).
  - exact non_decreasing_example.
  - cbn. lia.
Defined.

(** X23.  An [upper] of [0] is not an empty range: it is taken for the
    length of the list.  On a list in non-decreasing order that holds the
    key at a position from [lower] on, the search with [upper=0] returns
    the first such position, not [-1]. *)
Theorem X23_upper_zero_searches_to_the_end arr key lower i :
  non_decreasing arr -> lower <= i -> arr !! i = Some key ->
  exists p,
    binary_search arr key lower (Some 0) = Ok (Z.of_nat p) /\
    lower <= p <= i /\ arr !! p = Some key.
Proof.
  intros Hsorted Hi Hkey. pose proof (lookup_lt_Some _ _ _ Hkey) as Hlen.
  destruct (bisect_left_sorted arr key lower (length arr) Hsorted ltac:(lia))
    as (p & Hp & Hrange & Hbelow & Habove).
  unfold binary_search. cbn [upper_or_len]. rewrite decide_True by reflexivity.
  rewrite Hp. cbn [bind].
  assert (p <= i) as Hpi.
  { destruct (decide (p <= i)) as [|Hgt]; [assumption|].
    specialize (Hbelow i key ltac:(lia) Hkey). lia. }
  rewrite decide_True by lia.
  destruct (lookup_lt_is_Some_2 arr p ltac:(lia)) as [y Hy]. rewrite Hy.
  pose proof (Habove p y ltac:(lia) Hy).
  pose proof (Hsorted p i y key Hpi Hy Hkey).
  rewrite decide_True by lia.
  exists p. split; [reflexivity|]. split; [lia|]. rewrite Hy. f_equal. lia.
Qed.

Lemma X23_upper_zero_searches_to_the_end_witness :
  exists p,
    binary_search [1; 3; 3; 3; 8]%Z 8 0 (Some 0) = Ok (Z.of_nat p) /\
    0 <= p <= 4 /\ [1; 3; 3; 3; 8]%Z !! p = Some 8%Z.
Proof.
  apply (X23_upper_zero_searches_to_the_end [1; 3; 3; 3; 8]%Z 8 0 4).
  - exact non_decreasing_example.
  - lia.
  - reflexivity.
Defined.

(** X24.  A range that ends before it starts ([0 < upper < lower]) is not
    treated as empty either: the loop of [bisect_left] does not run, and
    the search compares [arr[lower]] with the key; it returns [lower] when
    they are equal, [-1] when they differ, and raises [IndexError] when
    [lower] is beyond the list. *)
Theorem X24_inverted_range arr key lower upper :
  0 < upper < lower ->
  binary_search arr key lower (Some upper)
  = match arr !! lower with
    | Some y => if decide (y = key) then Ok (Z.of_nat lower) else Ok (-1)%Z
    | None => Raise IndexError
    end.
Proof.
  intros Hrange. unfold binary_search. cbn [upper_or_len].
  rewrite decide_False by lia.
  rewrite bisect_left_loop, decide_False by lia. cbn [bind].
  by rewrite decide_True by lia.
Qed.

Lemma X24_inverted_range_witness :
  binary_search [1; 2; 3]%Z 3 2 (Some 1)
  = match [1; 2; 3]%Z !! 2 with
    | Some y => if decide (y = 3%Z) then Ok (Z.of_nat 2) else Ok (-1)%Z
    | None => Raise IndexError
    end.
Proof. apply (X24_inverted_range [1; 2; 3]%Z 3 2 1). lia. Defined.

(** ** [CharCounter] *)

Lemma getcount_increment counter k k' :
  getcount (increment counter k) k'
  = (getcount counter k' + if decide (k = k') then 1 else 0)%Z.
Proof.
  induction counter as [|[k0 v] rest IH]; cbn [increment getcount].
  - destruct (decide (k = k')); lia.
  - destruct (decide (k0 = k)) as [->|Hne]; cbn [getcount].
    + destruct (decide (k = k')); lia.
    + destruct (decide (k0 = k')) as [->|Hne'].
      * rewrite decide_False by congruence. lia.
      * apply IH.
Qed.

Lemma increment_keys counter k :
  (increment counter k).*1
  = if decide (k ∈ counter.*1) then counter.*1 else counter.*1 ++ [k].
Proof.
  induction counter as [|[k0 v] rest IH]; cbn [increment fmap list_fmap fst].
  - rewrite decide_False by apply not_elem_of_nil. reflexivity.
  - destruct (decide (k0 = k)) as [->|Hne]; cbn [fmap list_fmap fst].
    + rewrite decide_True by left. reflexivity.
    + change (list_fmap _ _ fst ?l) with (l.*1). rewrite IH.
      destruct (decide (k ∈ rest.*1)) as [Hin|Hout].
      * rewrite decide_True by (by right). reflexivity.
      * rewrite decide_False; [reflexivity|].
        intros [?|?]%elem_of_cons; [congruence | contradiction].
Qed.

Lemma total_count_increment counter k :
  total_count (increment counter k) = (total_count counter + 1)%Z.
Proof.
  induction counter as [|[k0 v] rest IH]; cbn [increment total_count foldr snd].
  - lia.
  - destruct (decide (k0 = k)); cbn [foldr snd]; [lia|].
    fold (total_count (increment rest k)). fold (total_count rest). lia.
Qed.

Lemma occurrences_cons {A : Type} `{EqDecision A} (x y : A) (l : list A) :
  occurrences x (y :: l) = (if decide (y = x) then 1 else 0) + occurrences x l.
Proof.
  unfold occurrences. rewrite filter_cons. by destruct (decide (y = x)).
Qed.

Lemma add_chars_counter self chars :
  let self' := foldl CharCounter.add_char self chars in
  (forall k, getcount (counter self') k
             = (getcount (counter self) k + Z.of_nat (occurrences k chars))%Z) /\
  (forall k, k ∈ (counter self').*1 <-> k ∈ (counter self).*1 \/ k ∈ chars) /\
  (NoDup (counter self).*1 -> NoDup (counter self').*1) /\
  total_count (counter self') = (total_count (counter self) + Z.of_nat (length chars))%Z /\
  entries self' = entries self /\ selector_function self' = selector_function self.
Proof.
  revert self. induction chars as [|c chars IH]; intros self; cbn [foldl].
  - cbn. repeat split; try tauto; intros; rewrite ?elem_of_nil in *; try tauto; lia.
  - destruct (IH (CharCounter.add_char self c)) as (Hcount & Hkeys & Hnd & Htotal & He & Hs).
    cbn [CharCounter.add_char counter entries selector_function] in *.
    repeat split.
    + intros k. rewrite Hcount, getcount_increment, occurrences_cons.
      destruct (decide (c = k)); lia.
    + rewrite Hkeys, increment_keys, elem_of_cons.
      destruct (decide (c ∈ (counter self).*1)) as [Hin|Hout].
      * intros [?|?]; [tauto|tauto].
      * rewrite elem_of_app, list_elem_of_singleton. tauto.
    + rewrite Hkeys, increment_keys, elem_of_cons.
      destruct (decide (c ∈ (counter self).*1)) as [Hin|Hout].
      * intros [?|[->|?]]; tauto.
      * rewrite elem_of_app, list_elem_of_singleton. intros [?|[->|?]]; tauto.
    + intros Hnodup. apply Hnd. rewrite increment_keys.
      destruct (decide (c ∈ (counter self).*1)) as [Hin|Hout]; [assumption|].
      apply NoDup_app. split; [assumption|]. split; [|apply NoDup_singleton].
      intros x Hx ->%list_elem_of_singleton. contradiction.
    + rewrite Htotal, total_count_increment. cbn [length]. lia.
    + exact He.
    + exact Hs.
Qed.

(** X25.  After [add_char] has been called on each string of a list,
    starting from a new [CharCounter], the frequency map has one item per
    distinct string of the list, the count of every string is the number
    of its occurrences in the list (0 for a string that does not occur),
    and the counts add up to the length of the list. *)
Theorem X25_add_char_counts_occurrences (chars : list (list ascii)) :
  let frequency_map :=
    CharCounter.get_frequency_map (foldl CharCounter.add_char CharCounter.__init__ chars) in
  NoDup frequency_map.*1 /\
  (forall k, k ∈ frequency_map.*1 <-> k ∈ chars) /\
  (forall k, getcount frequency_map k = Z.of_nat (occurrences k chars)) /\
  total_count frequency_map = Z.of_nat (length chars).
Proof.
  intros frequency_map. subst frequency_map. unfold CharCounter.get_frequency_map.
  destruct (add_chars_counter CharCounter.__init__ chars)
    as (Hcount & Hkeys & Hnd & Htotal & _).
  cbn [CharCounter.__init__ counter] in *.
  split; [apply Hnd, NoDup_nil_2|]. split; [|split].
  - intros k. rewrite Hkeys. cbn. rewrite elem_of_nil. tauto.
  - intros k. rewrite Hcount. cbn. lia.
  - rewrite Htotal. cbn. lia.
Qed.

Lemma case_insensitive_add_char_single self c :
  CharCounter.case_insensitive_add_char self [c]
  = CharCounter.add_char self (count_key c).
Proof.
  unfold CharCounter.case_insensitive_add_char, isspace, count_key. cbn.
  rewrite andb_true_r. by destruct (is_space_char c).
Qed.

Lemma count_text_add_chars self text :
  CharCounter.count_text self text
  = foldl CharCounter.add_char self (count_key <$> text).
Proof.
  unfold CharCounter.count_text. revert self.
  induction text as [|c text IH]; intros self; [reflexivity|].
  rewrite fmap_cons. cbn [foldl]. by rewrite case_insensitive_add_char_single, IH.
Qed.

Lemma occurrences_fmap_filter (f : ascii -> list ascii) (P : ascii -> Prop)
    `{!forall c, Decision (P c)} (k : list ascii) (text : list ascii) :
  (forall c, f c = k <-> P c) ->
  occurrences k (f <$> text) = length (filter P text).
Proof.
  intros HP. induction text as [|c text IH]; [reflexivity|].
  rewrite fmap_cons, occurrences_cons, filter_cons, IH.
  destruct (decide (f c = k)) as [Hk|Hk], (decide (P c)) as [Hc|Hc];
    try reflexivity; exfalso.
  - by apply Hc, HP.
  - by apply Hk, HP.
Qed.

(** X26.  After the loop of the [__main__] block has run over a text,
    starting from a new [CharCounter]: the count of ["whitespace"] is the
    number of whitespace characters of the text; the count of a
    one-character string is the number of non-whitespace characters of
    the text whose lower case is that character, so an uppercase letter,
    of ASCII or of Latin-1, has the count 0; and the counts add up to the
    length of the text. *)
Theorem X26_case_insensitive_counts (text : list ascii) :
  let frequency_map :=
    CharCounter.get_frequency_map (CharCounter.count_text CharCounter.__init__ text) in
  getcount frequency_map (str "whitespace")
  = Z.of_nat (length (filter (fun ch => is_space_char ch = true) text)) /\
  (forall c,
     getcount frequency_map [c]
     = Z.of_nat (length (filter (fun ch => is_space_char ch = false /\ lower_char ch = c)
                           text))) /\
  (forall c, is_upper c || is_upper_latin1 c = true -> getcount frequency_map [c] = 0%Z) /\
  total_count frequency_map = Z.of_nat (length text).
Proof.
  intros frequency_map. subst frequency_map. unfold CharCounter.get_frequency_map.
  rewrite count_text_add_chars.
  destruct (add_chars_counter CharCounter.__init__ (count_key <$> text))
    as (Hcount & _ & _ & Htotal & _).
  cbn [CharCounter.__init__ counter] in *.
  assert (forall c,
            getcount (counter (foldl CharCounter.add_char (mkCharCounter [] None None)
                                 (count_key <$> text))) [c]
            = Z.of_nat (length (filter
                (fun ch => is_space_char ch = false /\ lower_char ch = c) text))) as Hone.
  { intros c. rewrite Hcount. cbn [getcount]. rewrite Z.add_0_l. f_equal.
    apply occurrences_fmap_filter. intros ch. unfold count_key.
    destruct (is_space_char ch); split; try discriminate; try tauto.
    - intros [? _]. discriminate.
    - intros [= ->]. tauto.
    - intros [_ ->]. reflexivity. }
  split; [|split; [exact Hone|split]].
  - rewrite Hcount. cbn [getcount]. rewrite Z.add_0_l. f_equal.
    apply occurrences_fmap_filter. intros ch. unfold count_key.
    destruct (is_space_char ch); split; try discriminate; tauto.
  - intros c Hc. rewrite Hone.
    rewrite filter_none; [reflexivity|].
    intros ch _ [_ <-]. destruct (is_upper_lower_char ch) as [Hascii Hlatin1].
    rewrite Hascii, Hlatin1 in Hc. discriminate.
  - rewrite Htotal, length_fmap. cbn. lia.
Qed.

Lemma X26_case_insensitive_counts_witness :
  getcount
    (CharCounter.get_frequency_map
       (CharCounter.count_text CharCounter.__init__
          (ascii_of_nat <$> [201; 233; 160; 133; 223; 65])))
    (str "whitespace") = 2%Z /\
  getcount
    (CharCounter.get_frequency_map
       (CharCounter.count_text CharCounter.__init__
          (ascii_of_nat <$> [201; 233; 160; 133; 223; 65])))
    [ascii_of_nat 233] = 2%Z /\
  getcount
    (CharCounter.get_frequency_map
       (CharCounter.count_text CharCounter.__init__
          (ascii_of_nat <$> [201; 233; 160; 133; 223; 65])))
    [ascii_of_nat 201] = 0%Z /\
  total_count
    (CharCounter.get_frequency_map
       (CharCounter.count_text CharCounter.__init__
          (ascii_of_nat <$> [201; 233; 160; 133; 223; 65]))) = 6%Z.
Proof.
  pose proof (X26_case_insensitive_counts
                (ascii_of_nat <$> [201; 233; 160; 133; 223; 65])) as Hcounts.
  cbv zeta in Hcounts. destruct Hcounts as (Hspace & Hone & Hupper & Htotal).
  split; [exact Hspace|]. split; [exact (Hone (ascii_of_nat 233))|].
  split; [apply Hupper; reflexivity | exact Htotal].
Defined.

(** *** [sorted] *)

Section sorted.
Context {A : Type} (key : A -> Z).

Lemma insert_sorted_Permutation x l : insert_sorted key x l ≡ₚ x :: l.
Proof.
  induction l as [|y l IH]; cbn [insert_sorted]; [reflexivity|].
  case_decide; [|reflexivity]. rewrite IH. apply Permutation_swap.
Qed.

Lemma sorted_Permutation l : sorted key l ≡ₚ l.
Proof.
  unfold sorted. induction l as [|x l IH]; cbn [foldr]; [reflexivity|].
  by rewrite insert_sorted_Permutation, IH.
Qed.

Lemma insert_sorted_StronglySorted x l :
  StronglySorted (fun a b => (key a <= key b)%Z) l ->
  StronglySorted (fun a b => (key a <= key b)%Z) (insert_sorted key x l).
Proof.
  induction 1 as [|y l Hl IH Hy]; cbn [insert_sorted].
  - repeat constructor.
  - case_decide as Hcmp.
    + constructor; [exact IH|].
      rewrite insert_sorted_Permutation. constructor; [lia | exact Hy].
    + constructor; [by constructor|].
      constructor; [lia|]. eapply Forall_impl; [exact Hy|]. cbn. intros z Hz. lia.
Qed.

Lemma sorted_StronglySorted l :
  StronglySorted (fun a b => (key a <= key b)%Z) (sorted key l).
Proof.
  unfold sorted. induction l as [|x l IH]; cbn [foldr]; [constructor|].
  by apply insert_sorted_StronglySorted.
Qed.

Lemma StronglySorted_lookup_le (l : list A) i j x y :
  StronglySorted (fun a b => (key a <= key b)%Z) l ->
  i <= j -> l !! i = Some x -> l !! j = Some y -> (key x <= key y)%Z.
Proof.
  intros Hl. revert i j. induction Hl as [|z l Hl IH Hz]; intros i j Hij Hi Hj.
  - by rewrite lookup_nil in Hi.
  - destruct i as [|i], j as [|j]; cbn in Hi, Hj.
    + injection Hi as <-. injection Hj as <-. lia.
    + injection Hi as <-. rewrite Forall_forall in Hz.
      apply Hz. by eapply list_elem_of_lookup_2.
    + lia.
    + apply (IH i j); [lia | assumption..].
Qed.

Lemma insert_sorted_filter x l v :
  filter (fun a => key a = v) (insert_sorted key x l)
  = filter (fun a => key a = v) (x :: l).
Proof.
  induction l as [|y l IH]; cbn [insert_sorted]; [reflexivity|].
  case_decide as Hcmp; [|reflexivity].
  rewrite filter_cons, IH, !filter_cons.
  destruct (decide (key y = v)), (decide (key x = v)); try reflexivity. lia.
Qed.

Lemma sorted_filter l v :
  filter (fun a => key a = v) (sorted key l) = filter (fun a => key a = v) l.
Proof.
  unfold sorted. induction l as [|x l IH]; cbn [foldr]; [reflexivity|].
  by rewrite insert_sorted_filter, !filter_cons, IH.
Qed.
End sorted.

(** X27.  When no entries are cached, [get_entries] returns the items of
    the frequency map rearranged in ascending order of the selector
    function, items with equal selector values keeping the order they
    have in the frequency map, and caches that list.  With the default
    selector this is the order of descending count. *)
Theorem X27_get_entries_sorts self :
  entries self = None \/ entries self = Some [] ->
  let selector := default CharCounter.default_selector (selector_function self) in
  let result := CharCounter.get_entries self in
  result.2 ≡ₚ counter self /\
  (forall i j x y, i <= j -> result.2 !! i = Some x -> result.2 !! j = Some y ->
     (selector x <= selector y)%Z) /\
  (forall v, filter (fun item => selector item = v) result.2
             = filter (fun item => selector item = v) (counter self)) /\
  (selector_function self = None ->
   forall i j x y, i <= j -> result.2 !! i = Some x -> result.2 !! j = Some y ->
     (y.2 <= x.2)%Z) /\
  entries result.1 = Some result.2 /\ counter result.1 = counter self.
Proof.
  intros Hnone selector result.
  assert (result
          = (mkCharCounter (counter self) (Some (sorted selector (counter self)))
               (selector_function self),
             sorted selector (counter self))) as ->.
  { subst result selector. unfold CharCounter.get_entries.
    by destruct Hnone as [-> | ->]. }
  cbn [fst snd entries counter].
  assert (forall i j x y, i <= j ->
            sorted selector (counter self) !! i = Some x ->
            sorted selector (counter self) !! j = Some y ->
            (selector x <= selector y)%Z) as Hasc.
  { intros i j x y. apply StronglySorted_lookup_le, sorted_StronglySorted. }
  split; [apply sorted_Permutation|]. split; [exact Hasc|].
  split; [intros v; apply sorted_filter|]. split; [|split; reflexivity].
  intros Hdefault i j x y Hij Hx Hy. specialize (Hasc i j x y Hij Hx Hy).
  subst selector. rewrite Hdefault in Hasc.
  unfold CharCounter.default_selector in Hasc. cbn in Hasc. lia.
Qed.

Lemma X27_get_entries_sorts_witness :
  let self := CharCounter.count_text CharCounter.__init__ (str "a bb a") in
  let selector := default CharCounter.default_selector (selector_function self) in
  let result := CharCounter.get_entries self in
  result.2 ≡ₚ counter self /\
  (forall i j x y, i <= j -> result.2 !! i = Some x -> result.2 !! j = Some y ->
     (selector x <= selector y)%Z) /\
  (forall v, filter (fun item => selector item = v) result.2
             = filter (fun item => selector item = v) (counter self)) /\
  (selector_function self = None ->
   forall i j x y, i <= j -> result.2 !! i = Some x -> result.2 !! j = Some y ->
     (y.2 <= x.2)%Z) /\
  entries result.1 = Some result.2 /\ counter result.1 = counter self.
Proof.
  intros self.
  apply (X27_get_entries_sorts self). left. reflexivity.
Defined.

Lemma get_entries_cached self self' e es :
  CharCounter.get_entries self = (self', e :: es) -> entries self' = Some (e :: es).
Proof.
  unfold CharCounter.get_entries.
  destruct (entries self) as [[|e0 es0]|] eqn:Hentries; intros [= <- H]; cbn; congruence.
Qed.

Lemma run_update_entries self u : entries (run_update self u) = entries self.
Proof.
  destruct u as [character|character|function]; cbn; [reflexivity| |reflexivity].
  unfold CharCounter.case_insensitive_add_char. by destruct (isspace character).
Qed.

(** X28.  The entries are computed once: after [get_entries] has returned
    a non-empty list, it returns that same list after any further calls
    of [add_char], [case_insensitive_add_char] and
    [set_selector_function], whatever they add to the frequency map and
    whichever selector they set. *)
Theorem X28_entries_are_never_refreshed self self' e es (updates : list update) :
  CharCounter.get_entries self = (self', e :: es) ->
  CharCounter.get_entries (foldl run_update self' updates)
  = (foldl run_update self' updates, e :: es).
Proof.
  intros Hcached%get_entries_cached.
  assert (entries (foldl run_update self' updates) = Some (e :: es)) as Hkept.
  { revert self' Hcached. induction updates as [|u updates IH]; intros self' Hcached;
      cbn [foldl]; [assumption|].
    apply IH. by rewrite run_update_entries. }
  unfold CharCounter.get_entries. by rewrite Hkept.
Qed.

Lemma X28_entries_are_never_refreshed_witness :
  exists self' e es,
    CharCounter.get_entries (CharCounter.count_text CharCounter.__init__ (str "a bb a"))
    = (self', e :: es) /\
    CharCounter.get_entries
      (foldl run_update self'
         [AddChar (str "z"); SetSelectorFunction (Some (fun pair => pair.2));
          CaseInsensitiveAddChar (str "B")])
    = (foldl run_update self'
         [AddChar (str "z"); SetSelectorFunction (Some (fun pair => pair.2));
          CaseInsensitiveAddChar (str "B")],
       e :: es) /\
    getcount (counter (foldl run_update self'
         [AddChar (str "z"); SetSelectorFunction (Some (fun pair => pair.2));
          CaseInsensitiveAddChar (str "B")])) (str "z") = 1%Z /\
    getcount (e :: es) (str "z") = 0%Z.
Proof.
  eexists _, _, _. split; [reflexivity|]. split; [|split; reflexivity].
  apply (X28_entries_are_never_refreshed
           (CharCounter.count_text CharCounter.__init__ (str "a bb a"))).
  reflexivity.
Defined.
